(** * Steady rolling of an ellipsoid without slip: the derivation of
      [rattleback/ellipsoid_no_slip_steady.py], embedded and verified.

    The script is a straight-line symbolic derivation.  Its values are
    sympy expressions, vectors resolved in reference frames, and lists of
    such; its effects are three assertions and one write to a text file.

    - [Module Sympy] models the expression algebra the script computes
      with: expression trees with sympy's automatic evaluation of numbers,
      substitution, differentiation, and the expanded normal form.
    - [Module Mechanics] models reference frames, vectors, dyadics and the
      dot and cross products of [sympy.physics.mechanics].
    - [Module Cse] models the elimination of common subexpressions.
    - [Module Rattleback] is the script itself, line by line.
    - [Module Emit] is the code emission with its assertions and file write.
    - [Module Claimed] holds the contact geometry as the specification words
      it, for comparison.
    - [Module Further] holds the notions the further properties are stated
      with.

    The properties follow the definitions. *)

From Stdlib Require Import ZArith QArith List String Ascii Bool Lia.
From Stdlib Require Import DecimalString.
From Stdlib Require DecimalNat.
Import ListNotations.

Local Open Scope Q_scope.

(* ------------------------------------------------------------------ *)
(** * Expressions *)
(* ------------------------------------------------------------------ *)

Module Sympy.

(** A symbol is either a plain [Symbol(name)] or a function of time made by
    [dynamicsymbols]: [Fn name k] is the [k]-th time derivative of
    [name(t)], so [q[1]] is [Fn "q1" 0] and [q[1].diff(t)] is [Fn "q1" 1]. *)
Inductive var : Type :=
| Sy (name : string)
| Fn (name : string) (order : nat).

Inductive expr : Type :=
| Num (q : Q)
| Var (v : var)
| Add (x y : expr)
| Mul (x y : expr)
| Pow (x : expr) (p : Q)
| Sin (x : expr)
| Cos (x : expr).

Definition Qint (p : Q) : bool := Pos.eqb (Qden (Qred p)) 1.

Definition var_compare (u v : var) : comparison :=
  match u, v with
  | Sy a, Sy b => String.compare a b
  | Sy _, Fn _ _ => Lt
  | Fn _ _, Sy _ => Gt
  | Fn a i, Fn b j =>
      match String.compare a b with
      | Eq => Nat.compare i j
      | o => o
      end
  end.

Definition var_eqb (u v : var) : bool :=
  match var_compare u v with Eq => true | _ => false end.

Definition rank (e : expr) : nat :=
  match e with
  | Num _ => 0 | Var _ => 1 | Add _ _ => 2 | Mul _ _ => 3
  | Pow _ _ => 4 | Sin _ => 5 | Cos _ => 6
  end.

Definition lex (o : comparison) (k : comparison) : comparison :=
  match o with Eq => k | _ => o end.

Fixpoint expr_compare (x y : expr) : comparison :=
  match x, y with
  | Num p, Num q => Qcompare p q
  | Var u, Var v => var_compare u v
  | Add a b, Add c d => lex (expr_compare a c) (expr_compare b d)
  | Mul a b, Mul c d => lex (expr_compare a c) (expr_compare b d)
  | Pow a p, Pow c q => lex (Qcompare p q) (expr_compare a c)
  | Sin a, Sin c => expr_compare a c
  | Cos a, Cos c => expr_compare a c
  | _, _ => Nat.compare (rank x) (rank y)
  end.

Definition expr_eqb (x y : expr) : bool :=
  match expr_compare x y with Eq => true | _ => false end.

(** ** Automatic evaluation

    sympy evaluates numbers as an expression is built: [0 + x] is [x],
    [0 * x] is [0], [1 * x] is [x], [x ** 0] is [1], [x ** 1] is [x], and a
    number to an integer power is a number. *)

Definition add (x y : expr) : expr :=
  match x, y with
  | Num p, Num q => Num (Qred (p + q))
  | Num p, _ => if Qeq_bool p 0 then y else Add x y
  | _, Num q => if Qeq_bool q 0 then x else Add x y
  | _, _ => Add x y
  end.

Definition mul (x y : expr) : expr :=
  match x, y with
  | Num p, Num q => Num (Qred (p * q))
  | Num p, _ =>
      if Qeq_bool p 0 then Num 0 else if Qeq_bool p 1 then y else Mul x y
  | _, Num q =>
      if Qeq_bool q 0 then Num 0 else if Qeq_bool q 1 then x else Mul y x
  | _, _ => Mul x y
  end.

Definition Qpow_int (q p : Q) : Q := Qred (Qpower q (Qnum (Qred p))).

Definition pow (x : expr) (p : Q) : expr :=
  if Qeq_bool p 0 then Num 1
  else if Qeq_bool p 1 then x
  else match x with
       | Num q =>
           if Qeq_bool q 1 then Num 1
           else if Qeq_bool q 0 then (if Qle_bool 0 p then Num 0 else Pow x (Qred p))
           else if Qint p then Num (Qpow_int q p)
           else Pow x (Qred p)
       | Pow y r =>
           if Qint p then
             let rp := Qred (r * p) in
             if Qeq_bool rp 0 then Num 1
             else if Qeq_bool rp 1 then y else Pow y rp
           else Pow x (Qred p)
       | _ => Pow x (Qred p)
       end.

Definition neg (x : expr) : expr := mul (Num (-1)) x.
Definition sub (x y : expr) : expr := add x (neg y).
Definition div (x y : expr) : expr := mul x (pow y (-1)).
Definition sqrt (x : expr) : expr := pow x (1 # 2).

Definition is_zero (e : expr) : bool :=
  match e with Num q => Qeq_bool q 0 | _ => false end.

(** ** Substitution: [e.subs(dict)] *)

Definition subs_dict : Type := list (var * expr).

Fixpoint lookup (d : subs_dict) (v : var) : option expr :=
  match d with
  | [] => None
  | (u, e) :: d' => if var_eqb u v then Some e else lookup d' v
  end.

Fixpoint subs (d : subs_dict) (e : expr) : expr :=
  match e with
  | Num q => Num q
  | Var v => match lookup d v with Some r => r | None => Var v end
  | Add x y => add (subs d x) (subs d y)
  | Mul x y => mul (subs d x) (subs d y)
  | Pow x p => pow (subs d x) p
  | Sin x => Sin (subs d x)
  | Cos x => Cos (subs d x)
  end.

(** ** Differentiation: [e.diff(x)]

    With respect to the time symbol [t], a function of time differentiates
    to its next derivative; with respect to anything else it is a constant
    unless it is that very symbol. *)

Definition time : var := Sy "t".

Definition dvar (v x : var) : expr :=
  if var_eqb v x then Num 1
  else match v with
       | Fn n k => if var_eqb x time then Var (Fn n (S k)) else Num 0
       | Sy _ => Num 0
       end.

Fixpoint diff (e : expr) (x : var) : expr :=
  match e with
  | Num _ => Num 0
  | Var v => dvar v x
  | Add a b => add (diff a x) (diff b x)
  | Mul a b => add (mul (diff a x) b) (mul a (diff b x))
  | Pow a p => mul (mul (Num p) (pow a (Qred (p - 1)))) (diff a x)
  | Sin a => mul (Cos a) (diff a x)
  | Cos a => mul (neg (Sin a)) (diff a x)
  end.

(** A symbol occurs in an expression. *)
Fixpoint occurs (v : var) (e : expr) : bool :=
  match e with
  | Num _ => false
  | Var u => var_eqb u v
  | Add x y | Mul x y => occurs v x || occurs v y
  | Pow x _ | Sin x | Cos x => occurs v x
  end.

(** ** Expanded normal form

    [expand()] multiplies out products and integer powers of sums and
    gathers like terms.  The result is a sum of monomials, each a rational
    coefficient times powers of atoms.  An atom is a symbol, a sine or a
    cosine, or a base that carries a power that cannot be multiplied out
    (a sum under a negative or fractional exponent).  Atoms stay
    independent: no trigonometric identity is used, as the script sets
    [Vector.simp = False]. *)

Inductive atom : Type :=
| AVar (v : var)
| ASin (x : expr)
| ACos (x : expr)
| ABase (x : expr).

Definition atom_rank (a : atom) : nat :=
  match a with AVar _ => 0 | ASin _ => 1 | ACos _ => 2 | ABase _ => 3 end.

Definition atom_compare (a b : atom) : comparison :=
  match a, b with
  | AVar u, AVar v => var_compare u v
  | ASin x, ASin y => expr_compare x y
  | ACos x, ACos y => expr_compare x y
  | ABase x, ABase y => expr_compare x y
  | _, _ => Nat.compare (atom_rank a) (atom_rank b)
  end.

(** A monomial lists its atoms in increasing order with nonzero exponents. *)
Definition mono : Type := list (atom * Q).
(** A polynomial lists its monomials in increasing order with nonzero
    coefficients. *)
Definition poly : Type := list (mono * Q).

Fixpoint mono_mul (m : mono) : mono -> mono :=
  fix go (n : mono) : mono :=
    match m, n with
    | [], _ => n
    | _, [] => m
    | (a, i) :: m', (b, j) :: n' =>
        match atom_compare a b with
        | Lt => (a, i) :: mono_mul m' n
        | Gt => (b, j) :: go n'
        | Eq =>
            let k := Qred (i + j) in
            if Qeq_bool k 0 then mono_mul m' n' else (a, k) :: mono_mul m' n'
        end
    end.

(** Monomials are ordered as their exponent vectors, the smallest atom
    first; an absent atom has exponent 0.  Multiplying by a monomial keeps
    this order. *)
Fixpoint mono_compare (m : mono) : mono -> comparison :=
  fix go (n : mono) : comparison :=
    match m, n with
    | [], [] => Eq
    | [], (_, j) :: _ => Qcompare 0 j
    | (_, i) :: _, [] => Qcompare i 0
    | (a, i) :: m', (b, j) :: n' =>
        match atom_compare a b with
        | Lt => Qcompare i 0
        | Gt => Qcompare 0 j
        | Eq => lex (Qcompare i j) (mono_compare m' n')
        end
    end.

Fixpoint padd (p : poly) : poly -> poly :=
  fix go (q : poly) : poly :=
    match p, q with
    | [], _ => q
    | _, [] => p
    | (m, c) :: p', (n, d) :: q' =>
        match mono_compare m n with
        | Lt => (m, c) :: padd p' q
        | Gt => (n, d) :: go q'
        | Eq =>
            let k := Qred (c + d) in
            if Qeq_bool k 0 then padd p' q' else (m, k) :: padd p' q'
        end
    end.

Definition pscale (m : mono) (c : Q) (p : poly) : poly :=
  map (fun t => (mono_mul m (fst t), Qred (c * snd t))) p.

Fixpoint pmul (p q : poly) : poly :=
  match p with
  | [] => []
  | (m, c) :: p' => padd (pscale m c q) (pmul p' q)
  end.

Definition pconst (c : Q) : poly :=
  if Qeq_bool c 0 then [] else [([], Qred c)].

Definition patom (a : atom) (k : Q) : poly := [([(a, Qred k)], 1)].

Fixpoint ppow (p : poly) (n : nat) : poly :=
  match n with
  | O => pconst 1
  | S n' => pmul p (ppow p n')
  end.

(** From a polynomial back to an expression tree. *)
Definition atom_expr (a : atom) : expr :=
  match a with
  | AVar v => Var v
  | ASin x => Sin x
  | ACos x => Cos x
  | ABase x => x
  end.

Definition mono_expr (m : mono) : expr :=
  fold_left (fun acc t => mul acc (pow (atom_expr (fst t)) (snd t))) m (Num 1).

Definition term_expr (t : mono * Q) : expr := mul (Num (snd t)) (mono_expr (fst t)).

Definition denorm (p : poly) : expr :=
  fold_left (fun acc t => add acc (term_expr t)) p (Num 0).

(** A power of a normal form: a natural exponent multiplies out; a single
    symbol takes any exponent; a monomial takes an integer exponent factor
    by factor; anything else becomes an atom of its own. *)
Definition ppower (px : poly) (p : Q) : poly :=
  if Qeq_bool p 0 then pconst 1
  else if Qint p && Qle_bool 0 p then ppow px (Z.to_nat (Qnum (Qred p)))
  else match px with
       | [([(a, i)], c)] =>
           if Qeq_bool c 1 && (Qint p || Qeq_bool i 1)
           then patom a (i * p)
           else if Qint p
           then [([(a, Qred (i * p))], Qpow_int c p)]
           else patom (ABase (denorm px)) p
       | [(m, c)] =>
           if Qint p
           then [(map (fun t => (fst t, Qred (snd t * p))) m, Qpow_int c p)]
           else patom (ABase (denorm px)) p
       | _ => patom (ABase (denorm px)) p
       end.

Fixpoint norm (e : expr) : poly :=
  match e with
  | Num q => pconst q
  | Var v => patom (AVar v) 1
  | Add x y => padd (norm x) (norm y)
  | Mul x y => pmul (norm x) (norm y)
  | Pow x p => ppower (norm x) p
  | Sin x => patom (ASin (denorm (norm x))) 1
  | Cos x => patom (ACos (denorm (norm x))) 1
  end.

(** [e.expand()] *)
Definition expand (e : expr) : expr := denorm (norm e).

(** ** [e.collect(pat)]

    The terms of [e] are grouped by the power [k] of the pattern they
    carry: a term carries [pat**k] when each atom of the pattern has [k]
    times the pattern's exponent in it.  The result is the sum of
    [pat**k * (cofactors)] over the powers found, plus the terms that carry
    no power of the pattern. *)

Fixpoint mono_get (m : mono) (a : atom) : Q :=
  match m with
  | [] => 0
  | (b, i) :: m' =>
      match atom_compare a b with Eq => i | _ => mono_get m' a end
  end.

Definition match_power (pat m : mono) : option Q :=
  match pat with
  | [] => None
  | (a, i) :: pat' =>
      let k := Qred (mono_get m a / i) in
      if Qeq_bool k 0 then None
      else if forallb (fun t => Qeq_bool (mono_get m (fst t)) (k * snd t)) pat'
      then Some k else None
  end.

Definition mono_pow (m : mono) (k : Q) : mono :=
  map (fun t => (fst t, Qred (snd t * k))) m.

Fixpoint group_insert (k : Q) (t : mono * Q) (g : list (Q * poly)) : list (Q * poly) :=
  match g with
  | [] => [(k, [t])]
  | (k', p) :: g' =>
      match Qcompare k k' with
      | Eq => (k', padd [t] p) :: g'
      | Lt => (k, [t]) :: g
      | Gt => (k', p) :: group_insert k t g'
      end
  end.

Fixpoint collect_terms (pat : mono) (p : poly) : list (Q * poly) * poly :=
  match p with
  | [] => ([], [])
  | (m, c) :: p' =>
      let (g, rest) := collect_terms pat p' in
      match match_power pat m with
      | Some k => (group_insert k (mono_mul m (mono_pow pat (- k)), c) g, rest)
      | None => (g, padd [(m, c)] rest)
      end
  end.

Definition collect (e pat : expr) : expr :=
  match norm pat with
  | [(pm, _)] =>
      let (g, rest) := collect_terms pm (norm e) in
      add (fold_left (fun acc kp => add acc (mul (pow pat (fst kp)) (denorm (snd kp))))
                     g (Num 0))
          (denorm rest)
  | _ => e
  end.

(** ** [e.coeff(pat)]

    The coefficient is read off the top-level terms of [e]: a term that has
    the base of [pat] to exactly the exponent of [pat] among its factors
    contributes the product of its other factors. *)

Fixpoint terms (e : expr) : list expr :=
  match e with
  | Add x y => terms x ++ terms y
  | _ => [e]
  end.

Fixpoint factors (e : expr) : list expr :=
  match e with
  | Mul x y => factors x ++ factors y
  | _ => [e]
  end.

Definition as_base_exp (e : expr) : expr * Q :=
  match e with
  | Pow b p => (b, p)
  | _ => (e, 1)
  end.

Definition term_coeff (b : expr) (n : Q) (t : expr) : expr :=
  let fs := factors t in
  let hit := filter (fun f => expr_eqb (fst (as_base_exp f)) b) fs in
  let others := filter (fun f => negb (expr_eqb (fst (as_base_exp f)) b)) fs in
  let k := fold_left (fun acc f => acc + snd (as_base_exp f)) hit 0 in
  match hit with
  | [] => Num 0
  | _ => if Qeq_bool k n
         then fold_left mul others (Num 1)
         else Num 0
  end.

Definition coeff (e pat : expr) : expr :=
  let (b, n) := as_base_exp pat in
  fold_left (fun acc t => add acc (term_coeff b n t)) (terms e) (Num 0).

(** ** Structural identity of two expression trees *)

Definition Qbeq (p q : Q) : bool :=
  Z.eqb (Qnum p) (Qnum q) && Pos.eqb (Qden p) (Qden q).

Definition var_beq (u v : var) : bool :=
  match u, v with
  | Sy a, Sy b => String.eqb a b
  | Fn a i, Fn b j => String.eqb a b && Nat.eqb i j
  | _, _ => false
  end.

Fixpoint expr_beq (x y : expr) : bool :=
  match x, y with
  | Num p, Num q => Qbeq p q
  | Var u, Var v => var_beq u v
  | Add a b, Add c d => expr_beq b d && expr_beq a c
  | Mul a b, Mul c d => expr_beq b d && expr_beq a c
  | Pow a p, Pow c q => Qbeq p q && expr_beq a c
  | Sin a, Sin c => expr_beq a c
  | Cos a, Cos c => expr_beq a c
  | _, _ => false
  end.

(** ** Numeric value at a rational point

    A valuation gives every symbol a rational value and every angle a
    rational sine and cosine.  A half-integer power takes the exact
    rational square root when there is one; division by zero and
    irrational roots have no value. *)

Record valuation : Type := {
  val : var -> Q;
  sin_of : var -> Q;
  cos_of : var -> Q
}.

Definition Zsqrt_exact (z : Z) : option Z :=
  let r := Z.sqrt z in
  if (r * r =? z)%Z then Some r else None.

Definition Qsqrt_exact (q : Q) : option Q :=
  let q' := Qred q in
  match Zsqrt_exact (Qnum q'), Zsqrt_exact (Zpos (Qden q')) with
  | Some n, Some d => Some (Qred (Qmake n (Z.to_pos d)))
  | _, _ => None
  end.

Definition Qpow_val (v p : Q) : option Q :=
  let p' := Qred p in
  match Qden p' with
  | 1%positive =>
      if Qeq_bool v 0 && negb (Qle_bool 0 p') then None
      else Some (Qred (Qpower v (Qnum p')))
  | 2%positive =>
      match Qsqrt_exact v with
      | Some r =>
          if Qeq_bool r 0 && negb (Qle_bool 0 p') then None
          else Some (Qred (Qpower r (Qnum p')))
      | None => None
      end
  | _ => None
  end.

Definition lift2 (f : Q -> Q -> Q) (x y : option Q) : option Q :=
  match x, y with
  | Some u, Some v => Some (Qred (f u v))
  | _, _ => None
  end.

Fixpoint eval (rho : valuation) (e : expr) : option Q :=
  match e with
  | Num q => Some (Qred q)
  | Var v => Some (Qred (val rho v))
  | Add x y => lift2 Qplus (eval rho x) (eval rho y)
  | Mul x y => lift2 Qmult (eval rho x) (eval rho y)
  | Pow x p =>
      match eval rho x with
      | Some v => Qpow_val v p
      | None => None
      end
  | Sin (Var v) => Some (Qred (sin_of rho v))
  | Cos (Var v) => Some (Qred (cos_of rho v))
  | Sin _ | Cos _ => None
  end.

End Sympy.

(* ------------------------------------------------------------------ *)
(** * Frames, vectors and dyadics *)
(* ------------------------------------------------------------------ *)

Module Mechanics.
Import Sympy.

(** A column of three measure numbers and a 3x3 matrix, by rows. *)
Definition col : Type := (expr * expr * expr)%type.
Definition mat : Type := (col * col * col)%type.

Definition eye : mat :=
  ((Num 1, Num 0, Num 0), (Num 0, Num 1, Num 0), (Num 0, Num 0, Num 1)).

Definition transpose (m : mat) : mat :=
  let '((a, b, c), (d, e, f), (g, h, i)) := m in
  ((a, d, g), (b, e, h), (c, f, i)).

Definition col_dot (u v : col) : expr :=
  let '(a, b, c) := u in
  let '(x, y, z) := v in
  add (add (mul a x) (mul b y)) (mul c z).

Definition mat_col (m : mat) (v : col) : col :=
  let '(r0, r1, r2) := m in (col_dot r0 v, col_dot r1 v, col_dot r2 v).

Definition mat_mul (m n : mat) : mat :=
  let '(c0, c1, c2) := transpose n in
  let '(r0, r1, r2) := m in
  ((col_dot r0 c0, col_dot r0 c1, col_dot r0 c2),
   (col_dot r1 c0, col_dot r1 c1, col_dot r1 c2),
   (col_dot r2 c0, col_dot r2 c1, col_dot r2 c2)).

Definition col_map (f : expr -> expr) (v : col) : col :=
  let '(a, b, c) := v in (f a, f b, f c).

Definition col_add (u v : col) : col :=
  let '(a, b, c) := u in
  let '(x, y, z) := v in (add a x, add b y, add c z).

Definition mat_map (f : expr -> expr) (m : mat) : mat :=
  let '(r0, r1, r2) := m in (col_map f r0, col_map f r1, col_map f r2).

Definition mat_add (m n : mat) : mat :=
  let '(r0, r1, r2) := m in
  let '(s0, s1, s2) := n in (col_add r0 s0, col_add r1 s1, col_add r2 s2).

Definition col_is_zero (v : col) : bool :=
  let '(a, b, c) := v in is_zero a && is_zero b && is_zero c.

(** A reference frame knows its parent and the matrix [parent_orient],
    whose entry [(i, j)] is the dot product of the parent's [i]-th basis
    vector with this frame's [j]-th basis vector. *)
Inductive ReferenceFrame : Type :=
| Inertial (name : string)
| Oriented (name : string) (parent : ReferenceFrame) (parent_orient : mat).

Definition frame_name (A : ReferenceFrame) : string :=
  match A with Inertial n => n | Oriented n _ _ => n end.

Definition frame_eqb (A B : ReferenceFrame) : bool :=
  String.eqb (frame_name A) (frame_name B).

Fixpoint ancestors (A : ReferenceFrame) : list ReferenceFrame :=
  match A with
  | Inertial _ => [A]
  | Oriented _ P _ => A :: ancestors P
  end.

(** [dcm_up A B] is [A.dcm(B)] for an ancestor [B] of [A]: the product of
    the stored matrices along the way up. *)
Fixpoint dcm_up (A B : ReferenceFrame) : mat :=
  if frame_eqb A B then eye
  else match A with
       | Inertial _ => eye
       | Oriented _ P M => mat_mul (transpose M) (dcm_up P B)
       end.

Definition common_ancestor (A B : ReferenceFrame) : ReferenceFrame :=
  match find (fun F => existsb (frame_eqb F) (ancestors B)) (ancestors A) with
  | Some F => F
  | None => A
  end.

(** [A.dcm(B)]: entry [(i, j)] is [A_i . B_j]. *)
Definition dcm (A B : ReferenceFrame) : mat :=
  let C := common_ancestor A B in
  mat_mul (dcm_up A C) (transpose (dcm_up B C)).

(** A vector is a list of measure-number columns, one per frame. *)
Definition Vector : Type := list (col * ReferenceFrame).

Fixpoint vinsert (c : col) (F : ReferenceFrame) (v : Vector) : Vector :=
  match v with
  | [] => [(c, F)]
  | (c', G) :: v' =>
      if frame_eqb F G then (col_add c' c, G) :: v'
      else (c', G) :: vinsert c F v'
  end.

Definition vclean (v : Vector) : Vector :=
  filter (fun a => negb (col_is_zero (fst a))) v.

Definition vadd (u v : Vector) : Vector :=
  vclean (fold_left (fun acc a => vinsert (fst a) (snd a) acc) v u).

Definition vscale (s : expr) (v : Vector) : Vector :=
  vclean (map (fun a => (col_map (mul s) (fst a), snd a)) v).

Definition vneg (v : Vector) : Vector := vscale (Num (-1)) v.
Definition vsub (u v : Vector) : Vector := vadd u (vneg v).

Definition x_ (F : ReferenceFrame) : Vector := [((Num 1, Num 0, Num 0), F)].
Definition y_ (F : ReferenceFrame) : Vector := [((Num 0, Num 1, Num 0), F)].
Definition z_ (F : ReferenceFrame) : Vector := [((Num 0, Num 0, Num 1), F)].

(** Iterating over a frame yields its three basis vectors. *)
Definition basis (F : ReferenceFrame) : list Vector := [x_ F; y_ F; z_ F].

(** [dot(u, v)] *)
Definition dot (u v : Vector) : expr :=
  fold_left (fun out a =>
    fold_left (fun out b =>
      add out (col_dot (fst b) (mat_col (dcm (snd b) (snd a)) (fst a))))
      v out)
    u (Num 0).

(** [cross(u, v)]: for each part of [v], the determinant with the basis of
    that part's frame in the first row, the measure numbers of [u] in that
    frame in the second and those of the part in the third. *)
Definition cross (u v : Vector) : Vector :=
  fold_left (fun out b =>
    let F := snd b in
    let '(ox, oy, oz) := fst b in
    let sx := dot u (x_ F) in
    let sy := dot u (y_ F) in
    let sz := dot u (z_ F) in
    vadd out [((sub (mul sy oz) (mul sz oy),
                sub (mul sz ox) (mul sx oz),
                sub (mul sx oy) (mul sy ox)), F)])
    v [].

(** [v.express(F)] *)
Definition express (v : Vector) (F : ReferenceFrame) : Vector :=
  fold_left (fun out a => vadd out [(mat_col (dcm F (snd a)) (fst a), F)]) v [].

Definition mat_is_zero (m : mat) : bool :=
  let '(r0, r1, r2) := m in col_is_zero r0 && col_is_zero r1 && col_is_zero r2.

(** [v.diff(wrt, F)]: a part resolved in [F] is differentiated measure
    number by measure number; so is a part of a frame whose orientation in
    [F] does not depend on [wrt]; any other part is first expressed in
    [F]. *)
Definition vdiff (v : Vector) (wrt : var) (F : ReferenceFrame) : Vector :=
  fold_left (fun out a =>
    let G := snd a in
    if frame_eqb G F then
      vadd out [(col_map (fun e => diff e wrt) (fst a), F)]
    else if mat_is_zero (mat_map (fun e => diff e wrt) (dcm F G)) then
      vadd out [(col_map (fun e => diff e wrt) (fst a), G)]
    else
      let inF := mat_col (dcm F G) (fst a) in
      vadd out (express [(col_map (fun e => diff e wrt) inF, F)] G))
    v [].

(** [v.subs(dict)] *)
Definition vsubs (d : subs_dict) (v : Vector) : Vector :=
  fold_left (fun out a => vadd out [(col_map (subs d) (fst a), snd a)]) v [].

(** [v == 0]: no part is left, or every measure number expands to zero. *)
Definition vec_is_zero (v : Vector) : bool :=
  forallb (fun a => let '(x, y, z) := fst a in
                    is_zero (expand x) && is_zero (expand y) && is_zero (expand z)) v.

Definition magnitude (v : Vector) : expr := sqrt (dot v v).

Definition normalize (v : Vector) : Vector :=
  vscale (pow (magnitude v) (-1)) v.

(** [parent.orientnew(name, 'Axis', [theta, axis])]: the rotation by
    [theta] about [axis],
    [(eye - a a^T) cos theta + skew(a) sin theta + a a^T]. *)
Definition orientnew (parent : ReferenceFrame) (name : string)
    (theta : expr) (axis : Vector) : ReferenceFrame :=
  let a := match normalize (express axis parent) with
           | (c, _) :: _ => c
           | [] => (Num 0, Num 0, Num 0)
           end in
  let '(a0, a1, a2) := a in
  let aaT : mat :=
    ((mul a0 a0, mul a0 a1, mul a0 a2),
     (mul a1 a0, mul a1 a1, mul a1 a2),
     (mul a2 a0, mul a2 a1, mul a2 a2)) in
  let skew : mat :=
    ((Num 0, neg a2, a1), (a2, Num 0, neg a0), (neg a1, a0, Num 0)) in
  Oriented name parent
    (mat_add
       (mat_add (mat_map (fun e => mul e (Cos theta))
                         (mat_add eye (mat_map neg aaT)))
                (mat_map (fun e => mul e (Sin theta)) skew))
       aaT).

(** A dyadic is a sum of [coefficient * (a | b)]. *)
Definition Dyadic : Type := list (expr * Vector * Vector).

(** [inertia(frame, ixx, iyy, izz, ixy, iyz, izx)] *)
Definition inertia (F : ReferenceFrame) (ixx iyy izz ixy iyz izx : expr) : Dyadic :=
  [ (ixx, x_ F, x_ F); (ixy, x_ F, y_ F); (izx, x_ F, z_ F);
    (ixy, y_ F, x_ F); (iyy, y_ F, y_ F); (iyz, y_ F, z_ F);
    (izx, z_ F, x_ F); (iyz, z_ F, y_ F); (izz, z_ F, z_ F) ].

(** [dot(D, v)] for a dyadic [D] *)
Definition ddot (D : Dyadic) (v : Vector) : Vector :=
  fold_left (fun out t =>
    let '(c, a, b) := t in
    vadd out (vscale (mul c (dot b v)) a))
    D [].

End Mechanics.

(* ------------------------------------------------------------------ *)
(** * Common subexpressions *)
(* ------------------------------------------------------------------ *)

Module Cse.
Import Sympy.

(** Modelled from the spec: [numbered_symbols], sympy's generator of
    temporaries, which the script only calls.  A generator is a prefix and
    the index of the symbol it yields next; a fresh one starts at index 0
    and yields [prefix0], [prefix1], ... *)
Record generator : Type := { prefix : string; counter : nat }.

Definition numbered_symbols (p : string) : generator :=
  {| prefix := p; counter := 0 |}.

Definition numbered (p : string) (n : nat) : var :=
  Sy (p ++ NilEmpty.string_of_uint (Nat.to_uint n))%string.

Definition next (g : generator) : var * generator :=
  (numbered (prefix g) (counter g),
   {| prefix := prefix g; counter := S (counter g) |}).

Definition mem (e : expr) (l : list expr) : bool := existsb (expr_beq e) l.

Fixpoint assoc (e : expr) (l : list (expr * var)) : option var :=
  match l with
  | [] => None
  | (k, z) :: l' => if expr_beq e k then Some z else assoc e l'
  end.

(** The compound subexpressions met more than once, over all the
    expressions: a subexpression already seen is marked and not entered
    again. *)
Fixpoint find_repeated (e : expr) (st : list expr * list expr)
  : list expr * list expr :=
  match e with
  | Num _ | Var _ => st
  | _ =>
      let (seen, dup) := st in
      if mem e seen then (seen, if mem e dup then dup else e :: dup)
      else
        let st' := (e :: seen, dup) in
        match e with
        | Add x y | Mul x y => find_repeated y (find_repeated x st')
        | Pow x _ | Sin x | Cos x => find_repeated x st'
        | _ => st'
        end
  end.

(** The state of the rebuilding pass: which subexpression got which
    temporary, the table so far (latest entry first), and the generator. *)
Record state : Type := {
  memo : list (expr * var);
  table : list (var * expr);
  gen : generator
}.

(** A repeated subexpression gets the next temporary: its rebuilt form goes
    into the table, and the temporary stands for it from then on. *)
Definition allocate (dup : list expr) (e : expr) (r : expr * state) : expr * state :=
  let (e', st') := r in
  if mem e dup then
    let (z, g') := next (gen st') in
    (Var z, {| memo := (e, z) :: memo st';
               table := (z, e') :: table st';
               gen := g' |})
  else (e', st').

(** A compound subexpression that already has a temporary is replaced by
    it; otherwise its arguments are rebuilt first. *)
Definition visit (dup : list expr) (e : expr) (st : state)
    (arguments : state -> expr * state) : expr * state :=
  match assoc e (memo st) with
  | Some z => (Var z, st)
  | None => allocate dup e (arguments st)
  end.

Fixpoint rebuild (dup : list expr) (e : expr) (st : state) : expr * state :=
  match e with
  | Num _ | Var _ => (e, st)
  | Add x y =>
      visit dup e st (fun st =>
        let (x', s1) := rebuild dup x st in
        let (y', s2) := rebuild dup y s1 in (Add x' y', s2))
  | Mul x y =>
      visit dup e st (fun st =>
        let (x', s1) := rebuild dup x st in
        let (y', s2) := rebuild dup y s1 in (Mul x' y', s2))
  | Pow x p =>
      visit dup e st (fun st =>
        let (x', s1) := rebuild dup x st in (Pow x' p, s1))
  | Sin x =>
      visit dup e st (fun st =>
        let (x', s1) := rebuild dup x st in (Sin x', s1))
  | Cos x =>
      visit dup e st (fun st =>
        let (x', s1) := rebuild dup x st in (Cos x', s1))
  end.

Fixpoint rebuild_all (dup : list expr) (es : list expr) (st : state)
  : list expr * state :=
  match es with
  | [] => ([], st)
  | e :: es' =>
      let (e', s1) := rebuild dup e st in
      let (r, s2) := rebuild_all dup es' s1 in
      (e' :: r, s2)
  end.

(** Modelled from the spec: [cse(exprs, symbols)], sympy's elimination of
    common subexpressions, which the script only calls.  It returns the
    table of (temporary, expression) pairs, each expression referring only
    to input symbols and earlier temporaries, and the reduced expressions;
    the temporaries are taken from [symbols] in order. *)
Definition cse (exprs : list expr) (symbols : generator)
  : list (var * expr) * list expr :=
  let dup := snd (fold_left (fun st e => find_repeated e st) exprs ([], [])) in
  let (red, st) :=
    rebuild_all dup exprs {| memo := []; table := []; gen := symbols |} in
  (rev (table st), red).

(** Replacing a symbol by an expression, the tree rebuilt as it is
    ([xreplace]): nothing is evaluated anew. *)
Fixpoint xreplace (z : var) (r : expr) (e : expr) : expr :=
  match e with
  | Num q => Num q
  | Var v => if var_eqb v z then r else Var v
  | Add x y => Add (xreplace z r x) (xreplace z r y)
  | Mul x y => Mul (xreplace z r x) (xreplace z r y)
  | Pow x p => Pow (xreplace z r x) p
  | Sin x => Sin (xreplace z r x)
  | Cos x => Cos (xreplace z r x)
  end.

Definition unfold_table (tbl : list (var * expr)) (e : expr) : expr :=
  fold_left (fun acc zr => xreplace (fst zr) (snd zr) acc) tbl e.

Definition xreplace_back (tbl : list (var * expr)) (e : expr) : expr :=
  unfold_table (rev tbl) e.

(** No symbol of the expression has a name that starts with the prefix. *)
Definition starts_with (P : string) (v : var) : bool :=
  match v with
  | Sy n => String.prefix P n
  | Fn _ _ => false
  end.

Fixpoint free_of_prefix (P : string) (e : expr) : bool :=
  match e with
  | Num _ => true
  | Var v => negb (starts_with P v)
  | Add x y | Mul x y => free_of_prefix P x && free_of_prefix P y
  | Pow x _ | Sin x | Cos x => free_of_prefix P x
  end.

(** Substituting a table back, the last temporary first. *)
Definition subs_back (tbl : list (var * expr)) (e : expr) : expr :=
  fold_left (fun acc zr => subs [zr] acc) (rev tbl) e.

(** ** The invariant of the rebuilding pass *)

Section Invariant.

Variable P : string.   (* the prefix of the generator *)
Variable c0 : nat.     (* the index it started from *)

(** No temporary of index [c] or more occurs in [e]. *)
Definition fresh_from (c : nat) (e : expr) : Prop :=
  forall n, (c <= n)%nat -> occurs (numbered P n) e = false.

Definition temp_below (c : nat) (z : var) : Prop :=
  exists n, (n < c)%nat /\ z = numbered P n.

(** Every remembered subexpression is what its temporary unfolds to, and
    the temporaries of the table are the generator's symbols so far, in
    order. *)
Record inv (st : state) : Prop := {
  inv_prefix : prefix (gen st) = P;
  inv_start : (c0 <= counter (gen st))%nat;
  inv_memo : forall k z, In (k, z) (memo st) ->
             unfold_table (table st) (Var z) = k /\ temp_below (counter (gen st)) z;
  inv_table : forall z r, In (z, r) (table st) ->
              exists n, (n < counter (gen st))%nat /\ z = numbered P n /\ fresh_from n r;
  inv_names : map fst (rev (table st)) =
              map (numbered P) (seq c0 (counter (gen st) - c0))
}.

(** What a rebuilding step from [st] promises for the expression [e]. *)
Definition post (st : state) (e : expr) (r : expr * state) : Prop :=
  inv (snd r) /\
  (counter (gen st) <= counter (gen (snd r)))%nat /\
  (exists new, table (snd r) = new ++ table st /\
               forall z r', In (z, r') new ->
                 exists n, (counter (gen st) <= n)%nat /\ z = numbered P n) /\
  unfold_table (table (snd r)) (fst r) = e /\
  fresh_from (counter (gen (snd r))) (fst r).

Definition post_list (st : state) (es : list expr) (r : list expr * state) : Prop :=
  inv (snd r) /\
  (counter (gen st) <= counter (gen (snd r)))%nat /\
  (exists new, table (snd r) = new ++ table st /\
               forall z r', In (z, r') new ->
                 exists n, (counter (gen st) <= n)%nat /\ z = numbered P n) /\
  map (unfold_table (table (snd r))) (fst r) = es /\
  (forall e', In e' (fst r) -> fresh_from (counter (gen (snd r))) e').

End Invariant.

(** ** Order of a table *)

(** The symbols of an expression, with repetitions. *)
Fixpoint vars (e : expr) : list var :=
  match e with
  | Num _ => []
  | Var v => [v]
  | Add x y | Mul x y => (vars x ++ vars y)%list
  | Pow x _ | Sin x | Cos x => vars x
  end.

(** Every symbol of [e] with the prefix is one of the first [k]
    temporaries. *)
Definition temps_below (P : string) (k : nat) (e : expr) : bool :=
  forallb (fun v => negb (starts_with P v)
                    || existsb (fun j => var_beq v (numbered P j)) (seq 0 k))
          (vars e).

(** From index [k] on, each entry defines the next temporary by an
    expression over earlier temporaries only. *)
Fixpoint ordered_from (P : string) (k : nat) (tbl : list (var * expr)) : bool :=
  match tbl with
  | [] => true
  | (z, r) :: tbl' =>
      var_beq z (numbered P k) && temps_below P k r && ordered_from P (S k) tbl'
  end.

End Cse.

(* ------------------------------------------------------------------ *)
(** * The derivation *)
(* ------------------------------------------------------------------ *)

Module Rattleback.
Import Sympy Mechanics Cse.

Coercion Var : var >-> expr.

(** Python list helpers: [l[i]], [[x]*n], [l[i] = x], [range(n)]. *)
Class Default (A : Type) : Type := default : A.
#[export] Instance default_var : Default var := Sy EmptyString.
#[export] Instance default_expr : Default expr := Num 0.
#[export] Instance default_list (A : Type) : Default (list A) := [].

Definition item {A : Type} `{Default A} (l : list A) (i : nat) : A := nth i l default.
Notation "l .[ i ]" := (item l i) (at level 1, left associativity, format "l .[ i ]").

(** [l[i] = x].  Python raises [IndexError] when [i] is out of range; every
    list of the script is made with [[0]*n] and written within its range,
    so out of range the list is simply returned. *)
Fixpoint setitem {A : Type} (l : list A) (i : nat) (x : A) : list A :=
  match l, i with
  | [], _ => []
  | _ :: l', O => x :: l'
  | y :: l', S i' => y :: setitem l' i' x
  end.

Definition range (n : nat) : list nat := seq 0 n.

(** [symbols] and [dynamicsymbols] *)
Definition symbols (name : string) : var := Sy name.
Definition dynamicsymbols (name : string) : var := Fn name 0.
(** [x.diff(t)] of a function of time *)
Definition diff_t (x : var) : var :=
  match x with
  | Fn n k => Fn n (S k)
  | Sy n => Sy n
  end.

Definition t : var := symbols "t".
Definition g : var := symbols "g".
Definition a : var := symbols "a".
Definition b : var := symbols "b".
Definition c : var := symbols "c".
Definition d : var := symbols "d".
Definition e : var := symbols "e".
Definition f : var := symbols "f".
Definition s : var := symbols "s".

Definition m : var := symbols "m".
Definition Ixx : var := symbols "Ixx".
Definition Iyy : var := symbols "Iyy".
Definition Izz : var := symbols "Izz".
Definition Ixy : var := symbols "Ixy".
Definition Iyz : var := symbols "Iyz".
Definition Ixz : var := symbols "Ixz".

Definition q : list var := map dynamicsymbols ["q0"; "q1"; "q2"]%string.
Definition qd : list var := map diff_t q.
Definition r : list var := map dynamicsymbols ["r0"; "r1"; "r2"]%string.
Definition rd : list var := map diff_t r.

Definition N : ReferenceFrame := Inertial "N".
Definition Y : ReferenceFrame := orientnew N "Y" q.[0] (z_ N).
Definition L : ReferenceFrame := orientnew Y "L" q.[1] (x_ Y).
Definition R : ReferenceFrame := orientnew L "R" q.[2] (y_ L).

Definition I : Dyadic := inertia R Ixx Iyy Izz Ixy Iyz Ixz.

(** line 27: [R.set_ang_vel(N, ...)] *)
Definition R_ang_vel_0 : Vector :=
  vadd (vadd (vscale qd.[0] (z_ Y)) (vscale qd.[1] (x_ Y))) (vscale qd.[2] (y_ L)).

(** lines 35-39 *)
Definition mu : list expr := map (fun rk => dot rk (z_ Y)) (basis R).
(** the argument of [sqrt] on line 36 *)
Definition quadratic_form : expr :=
  add (add (pow (mul a mu.[0]) 2) (pow (mul b mu.[1]) 2)) (pow (mul c mu.[2]) 2).
Definition eps : expr := sqrt quadratic_form.
(** [O.pos_from(P)] *)
Definition O_pos : Vector :=
  vsub (vsub (vscale (div (mul (mul (neg a) a) mu.[0]) eps) (x_ R))
             (vscale (div (mul (mul b b) mu.[1]) eps) (y_ R)))
       (vscale (div (mul (mul c c) mu.[2]) eps) (z_ R)).
(** line 40: [O.set_vel(N, ...)] *)
Definition O_vel_0 : Vector := cross R_ang_vel_0 O_pos.

(** lines 43-44 *)
Definition RO_pos : Vector :=
  vadd (vadd (vscale d (x_ R)) (vscale e (y_ R))) (vscale f (z_ R)).
Definition RO_vel_0 : Vector := vadd O_vel_0 (cross R_ang_vel_0 RO_pos).

(** lines 47-48 *)
Definition partial_w : list Vector := map (fun qdi => vdiff R_ang_vel_0 qdi N) qd.
Definition partial_v_RO : list Vector := map (fun qdi => vdiff RO_vel_0 qdi N) qd.

(** lines 50-51 *)
Definition steady_dict : subs_dict :=
  [ (qd.[1], Num 0); (qd.[2], Num 0);
    (diff_t qd.[0], Num 0); (diff_t qd.[1], Num 0); (diff_t qd.[2], Num 0) ].

(** lines 54-56: the velocities are set again, under steady motion *)
Definition O_vel : Vector := vsubs steady_dict O_vel_0.
Definition RO_vel : Vector := vsubs steady_dict RO_vel_0.
Definition R_ang_vel : Vector := vsubs steady_dict R_ang_vel_0.

(** line 60: the asserted condition *)
Definition steady_derivative : Vector := vsubs steady_dict (vdiff RO_vel t R).
Definition assert_60 : bool := vec_is_zero steady_derivative.

(** line 62 *)
Definition RO_acc : Vector := cross R_ang_vel RO_vel.

(** line 65 *)
Definition F_RO : Vector := vscale (mul m g) (z_ Y).
(** line 68 *)
Definition gaf_RO : list expr := map (fun pv => dot F_RO pv) partial_v_RO.
(** lines 71-73 *)
Definition R_star : Vector := vscale (neg m) RO_acc.
Definition T_star : Vector := vneg (cross R_ang_vel (ddot I R_ang_vel)).

(** lines 76-83: the loop, threading the three lists *)
Definition dyn_step (st : list expr * list expr * list expr) (i : nat)
  : list expr * list expr * list expr :=
  let '(f_r, f_r_star, f_dyn) := st in
  let f_r := setitem f_r i (collect (expand gaf_RO.[i]) (mul m g)) in
  let f_r_star :=
    setitem f_r_star i
      (collect (expand (add (dot R_star partial_v_RO.[i]) (dot T_star partial_w.[i])))
               (pow qd.[0] 2)) in
  let f_dyn := setitem f_dyn i (add f_r.[i] f_r_star.[i]) in
  (f_r, f_r_star, f_dyn).

Definition dyn_loop : list expr * list expr * list expr :=
  fold_left dyn_step (range 3)
    (repeat (Num 0) 3, repeat (Num 0) 3, repeat (Num 0) 3).

Definition f_r : list expr := fst (fst dyn_loop).
Definition f_r_star : list expr := snd (fst dyn_loop).
Definition f_dyn : list expr := snd dyn_loop.

(** line 83: the condition asserted in pass [i] of the loop, on the
    residual as that pass has just stored it *)
Definition assert_83 (i : nat) : bool :=
  is_zero (diff (snd (fold_left dyn_step (range (S i))
                        (repeat (Num 0) 3, repeat (Num 0) 3, repeat (Num 0) 3))).[i]
                q.[0]).
(** line 86 *)
Definition assert_86 : bool := is_zero f_dyn.[0].

(** The residual of pass [i] before [expand] and [collect] touch it. *)
Definition residual_unexpanded (i : nat) : expr :=
  add gaf_RO.[i] (add (dot R_star partial_v_RO.[i]) (dot T_star partial_w.[i])).

(** lines 93-96 *)
Definition h_step (f_dyn : list expr) (h : list expr) (i : nat) : list expr :=
  let h := setitem h (2 * i) (subs [(qd.[0], Num 0)] f_dyn.[i + 1]) in
  setitem h (2 * i + 1) (coeff f_dyn.[i + 1] (pow qd.[0] 2)).
Definition h_loop (f_dyn : list expr) : list expr :=
  fold_left (h_step f_dyn) (range 2) (repeat (Num 0) 4).
Definition h_0 : list expr := h_loop f_dyn.

(** lines 99-102 *)
Definition dh_step (h : list expr) (dh : list expr) (ij : nat * nat) : list expr :=
  let (i, j) := ij in
  setitem dh (2 * i + j) (diff h.[i] q.[j + 1]).
Definition dh_loop (h : list expr) : list expr :=
  fold_left (dh_step h)
    (flat_map (fun i => map (fun j => (i, j)) (range 2)) (range 4))
    (repeat (Num 0) 8).
Definition dh_0 : list expr := dh_loop h_0.

(** lines 105-106 *)
Definition symbol_dict : subs_dict :=
  [ (q.[1], Var (Sy "q1")); (q.[2], Var (Sy "q2")); (qd.[0], Var (Sy "qd0"));
    (r.[0], Var (Sy "rx")); (r.[1], Var (Sy "ry")); (r.[2], Var (Sy "rz")) ].

(** lines 108-111 *)
Definition h : list expr :=
  fold_left (fun h i => setitem h i (subs symbol_dict h.[i])) (range 4) h_0.
Definition dh : list expr :=
  fold_left (fun dh i => setitem dh i (subs symbol_dict dh.[i])) (range 8) dh_0.

(** line 114: [z, h_red = cse(h, numbered_symbols('z'))] *)
Definition z_h : list (var * expr) := fst (cse h (numbered_symbols "z")).
Definition h_red : list expr := snd (cse h (numbered_symbols "z")).

(** line 126: [z, dh_red = cse(dh, numbered_symbols('z'))]; the name [z] is
    bound again, to the second table *)
Definition z_dh : list (var * expr) := fst (cse dh (numbered_symbols "z")).
Definition dh_red : list expr := snd (cse dh (numbered_symbols "z")).

End Rattleback.

(* ------------------------------------------------------------------ *)
(** * Code emission *)
(* ------------------------------------------------------------------ *)

Module Emit.
Import Sympy Mechanics Rattleback Cse.
Local Open Scope string_scope.

(** The run either raises or goes on; what it does to the file system is
    recorded as a trace of events. *)
Inductive exn : Type :=
| AssertionError (line : nat)
| LibraryError.

Inductive event : Type :=
| FileOpen (name mode : string)
| FileWrite (text : string)
| FileClose.

Definition M (A : Type) : Type := list event -> (exn + A) * list event.

Definition ret {A : Type} (x : A) : M A := fun tr => (inr x, tr).
Definition bind {A B : Type} (c : M A) (k : A -> M B) : M B :=
  fun tr =>
    match c tr with
    | (inl err, tr') => (inl err, tr')
    | (inr x, tr') => k x tr'
    end.
Definition raise {A : Type} (err : exn) : M A := fun tr => (inl err, tr).
Definition emit (ev : event) : M unit := fun tr => (inr tt, (tr ++ [ev])%list).

Notation "c1 ;; c2" := (bind c1 (fun _ => c2)) (at level 61, right associativity).
Notation "x <- c1 ;; c2" := (bind c1 (fun x => c2))
  (at level 61, c1 at next level, right associativity).

(** [assert(b)] on the given line *)
Definition assert_ (line : nat) (b : bool) : M unit :=
  if b then ret tt else raise (AssertionError line).

(** a library call that either returns or raises *)
Definition call {A : Type} (r : option A) : M A :=
  match r with Some x => ret x | None => raise LibraryError end.

Fixpoint for_ {A : Type} (l : list A) (body : A -> M unit) : M unit :=
  match l with
  | [] => ret tt
  | x :: l' => body x ;; for_ l' body
  end.

Definition str_nat (n : nat) : string := NilEmpty.string_of_uint (Nat.to_uint n).

(** [str(symbol)] *)
Definition str_var (v : var) : string :=
  match v with
  | Sy n => n
  | Fn n O => n ++ "(t)"
  | Fn n (S _) => "Derivative(" ++ n ++ "(t), t)"
  end.

Definition is_digit (ch : ascii) : bool :=
  let n := nat_of_ascii ch in (48 <=? n)%nat && (n <=? 57)%nat.

Definition starts_with_digit (s : string) : bool :=
  match s with
  | String ch _ => is_digit ch
  | EmptyString => false
  end.

(** [re.sub(r"z(\d+)", r"z[\1]", text)]: [in_match] says that the digits
    of a match are being copied and the bracket is still open. *)
Fixpoint re_sub (text : string) (in_match : bool) : string :=
  match text with
  | EmptyString => if in_match then "]" else EmptyString
  | String ch rest =>
      if in_match && is_digit ch then String ch (re_sub rest true)
      else
        let close := if in_match then "]" else EmptyString in
        if Ascii.eqb ch "z"%char && starts_with_digit rest
        then close ++ "z[" ++ re_sub rest true
        else close ++ String ch (re_sub rest false)
  end.

Section Printer.

(** The expression printer [ccode] is a parameter of the emission. *)
Variable ccode : expr -> string.

(** lines 118-119 and 130-131 *)
Definition assignments (z : list (var * expr)) (out : string) : string :=
  fold_left (fun out zi =>
               out ++ "  " ++ str_var (fst zi) ++ " = " ++ ccode (snd zi) ++ ";" ++ "
")
            z out.

(** lines 122-123 and 134-135 *)
Definition results (name : string) (n : nat) (red : list expr) (out : string) : string :=
  fold_left (fun out i =>
               out ++ "  " ++ name ++ "[" ++ str_nat i ++ "] = " ++ ccode red.[i] ++ ";" ++ "
")
            (range n) out.

(** lines 117-140 *)
Definition output_code : string :=
  let output_code := "  // Intermediate variables for h's
" in
  let output_code := assignments z_h output_code in
  let output_code := output_code ++ "
  // h's
" in
  let output_code := results "h" 4 h_red output_code in
  let output_code := output_code ++ "
  // Intermediate variables for dh's
" in
  let output_code := assignments z_dh output_code in
  let output_code := output_code ++ "
  // dh's
" in
  let output_code := results "dh" 8 dh_red output_code in
  re_sub output_code false.

(** What the derivation hands to the emission: the outcome of each
    assertion and the rendered text, if rendering returned. *)
Record derivation : Type := {
  check_60 : bool;
  check_83 : nat -> bool;
  check_86 : bool;
  rendered : option string
}.

Definition all_pass (D : derivation) : bool :=
  check_60 D && forallb (check_83 D) (range 3) && check_86 D.

(** The script as a program: assertions in the order of the lines, then the
    text, then lines 142-144. *)
Definition script (D : derivation) : M unit :=
  assert_ 60 (check_60 D) ;;
  for_ (range 3) (fun i => assert_ 83 (check_83 D i)) ;;
  assert_ 86 (check_86 D) ;;
  output_code <- call (rendered D) ;;
  emit (FileOpen "ellipsoid_no_slip_steady.txt" "w") ;;
  emit (FileWrite output_code) ;;
  emit FileClose.

Definition the_derivation : derivation :=
  {| check_60 := assert_60;
     check_83 := assert_83;
     check_86 := assert_86;
     rendered := Some output_code |}.

Definition main : M unit := script the_derivation.

End Printer.

End Emit.

(* ------------------------------------------------------------------ *)
(** * The position formula as the specification words it *)
(* ------------------------------------------------------------------ *)

Module Claimed.
Import Sympy Mechanics Rattleback.

(** The specification calls [eps] the quadratic form of the three scaled
    direction cosines itself. *)
Definition eps_claimed : expr := quadratic_form.

Definition O_pos_claimed : Vector :=
  vsub (vsub (vscale (div (mul (mul (neg a) a) mu.[0]) eps_claimed) (x_ R))
             (vscale (div (mul (mul b b) mu.[1]) eps_claimed) (y_ R)))
       (vscale (div (mul (mul c c) mu.[2]) eps_claimed) (z_ R)).

(** A ball of radius 2 leaning by the angle whose sine is 3/5. *)
Definition ball : valuation :=
  {| val := fun _ => 2;
     sin_of := fun v => if var_beq v q.[1] then 3 # 5 else 0;
     cos_of := fun v => if var_beq v q.[1] then 4 # 5 else 1 |}.

(** The bases an expression divides by: those under a negative power. *)
Fixpoint divisors (e : expr) : list expr :=
  match e with
  | Num _ | Var _ => []
  | Add x y | Mul x y => divisors x ++ divisors y
  | Pow x p => (if Qle_bool 0 p then [] else [x]) ++ divisors x
  | Sin x | Cos x => divisors x
  end.

(** A body with distinct parameter values, leaning and pitched by the
    angle whose sine is 3/5 and spinning at rate 31; its quadratic form is
    the square of 144/5. *)
Definition body_value (n : string) : Q :=
  if String.eqb n "a" then 20 else if String.eqb n "b" then 32
  else if String.eqb n "c" then 30 else if String.eqb n "d" then 1
  else if String.eqb n "e" then 2 else if String.eqb n "f" then 3
  else if String.eqb n "m" then 5 else if String.eqb n "g" then 7
  else if String.eqb n "Ixx" then 11 else if String.eqb n "Iyy" then 13
  else if String.eqb n "Izz" then 17 else if String.eqb n "Ixy" then 19
  else if String.eqb n "Iyz" then 23 else if String.eqb n "Ixz" then 29
  else 1.

Definition body : valuation :=
  {| val := fun v => match v with
                     | Sy n => body_value n
                     | Fn _ 0 => 1
                     | Fn _ (S _) => 31
                     end;
     sin_of := fun _ => 3 # 5;
     cos_of := fun _ => 4 # 5 |}.

Definition measure_numbers (rho : valuation) (v : Vector)
  : list (option Q * option Q * option Q) :=
  map (fun part => let '(x, y, z) := fst part in
                   (eval rho x, eval rho y, eval rho z)) v.

End Claimed.

(* ------------------------------------------------------------------ *)
(** * Further notions, for the properties of the lines the claims leave *)
(* ------------------------------------------------------------------ *)

Module Further.
Import Sympy Mechanics Cse Rattleback Emit.
Local Open Scope string_scope.

(** ** Text *)

(** No [z] of the text stands directly before a digit: the pattern of line
    140 matches nowhere. *)
Fixpoint no_match (text : string) : bool :=
  match text with
  | EmptyString => true
  | String ch rest =>
      negb (Ascii.eqb ch "z"%char && starts_with_digit rest) && no_match rest
  end.

Fixpoint all_digits (text : string) : bool :=
  match text with
  | EmptyString => true
  | String ch rest => is_digit ch && all_digits rest
  end.

(** [out] is [text] with square brackets put in: every character of
    [text], a bracket of its own included, is kept in its place, and
    whatever else [out] holds is a square bracket. *)
Inductive inserts_brackets : string -> string -> Prop :=
| ib_end : inserts_brackets EmptyString EmptyString
| ib_keep (ch : ascii) (text out : string) :
    inserts_brackets text out -> inserts_brackets (String ch text) (String ch out)
| ib_open (text out : string) :
    inserts_brackets text out -> inserts_brackets text (String "["%char out)
| ib_close (text out : string) :
    inserts_brackets text out -> inserts_brackets text (String "]"%char out).



Definition newline : ascii := "010"%char.

(** One statement of the emitted code, as lines 119, 123, 131 and 135
    format it. *)
Definition statement (lhs rhs : string) : string :=
  "  " ++ lhs ++ " = " ++ rhs ++ ";" ++ String newline EmptyString.

Definition ends_line (l : string) : Prop :=
  exists l', l = l' ++ String newline EmptyString.

Fixpoint concat_lines (ls : list string) : string :=
  match ls with
  | [] => EmptyString
  | l :: ls' => l ++ concat_lines ls'
  end.

Section Lines.

Variable ccode : expr -> string.

(** Lines 117-140 for any two tables and reduced lists. *)
Definition text_of (zh : list (var * expr)) (hr : list expr)
    (zdh : list (var * expr)) (dhr : list expr) : string :=
  let output_code := "  // Intermediate variables for h's
" in
  let output_code := assignments ccode zh output_code in
  let output_code := output_code ++ "
  // h's
" in
  let output_code := results ccode "h" 4 hr output_code in
  let output_code := output_code ++ "
  // Intermediate variables for dh's
" in
  let output_code := assignments ccode zdh output_code in
  let output_code := output_code ++ "
  // dh's
" in
  let output_code := results ccode "dh" 8 dhr output_code in
  re_sub output_code false.

(** The lines of the text in the order lines 117-135 append them. *)
Definition lines_of (zh : list (var * expr)) (hr : list expr)
    (zdh : list (var * expr)) (dhr : list expr) : list string :=
  (["  // Intermediate variables for h's
"]
   ++ map (fun zi => statement (str_var (fst zi)) (ccode (snd zi))) zh
   ++ ["
  // h's
"]
   ++ map (fun i => statement ("h[" ++ str_nat i ++ "]") (ccode hr.[i])) (range 4)
   ++ ["
  // Intermediate variables for dh's
"]
   ++ map (fun zi => statement (str_var (fst zi)) (ccode (snd zi))) zdh
   ++ ["
  // dh's
"]
   ++ map (fun i => statement ("dh[" ++ str_nat i ++ "]") (ccode dhr.[i])) (range 8))%list.

Definition lines : list string := lines_of z_h h_red z_dh dh_red.

End Lines.

(** ** The run *)

(** A derivation whose first assertion fails. *)
Definition fails_at_60 : derivation :=
  {| check_60 := false; check_83 := fun _ => true; check_86 := true;
     rendered := None |}.

(** ** Vectors of the derivation *)

(** The frame and the expanded measure numbers of each part of a vector. *)
Definition resolved (v : Vector) : list (string * list poly) :=
  map (fun part => let '(x, y, z) := fst part in
                   (frame_name (snd part), [norm x; norm y; norm z])) v.

Definition occurs_in_vector (v : var) (u : Vector) : bool :=
  existsb (fun part => let '(x, y, z) := fst part in
                       occurs v x || occurs v y || occurs v z) u.

(** [RO.pos_from(P)]: the two hops of lines 37 and 43. *)
Definition P_to_RO : Vector := vadd O_pos RO_pos.

(** The sum of the generalized speeds times the vectors of a list. *)
Definition combine_speeds (pv : list Vector) : Vector :=
  vadd (vadd (vscale qd.[0] pv.[0]) (vscale qd.[1] pv.[1])) (vscale qd.[2] pv.[2]).

(** The nine entries of a matrix, row by row. *)
Definition mat_entries (mt : mat) : list expr :=
  let '((a1, a2, a3), (b1, b2, b3), (c1, c2, c3)) := mt in
  [a1; a2; a3; b1; b2; b3; c1; c2; c3].

(** The measure numbers [R_i . I . R_j] of the inertia dyadic, expanded. *)
Definition inertia_matrix : list (list poly) :=
  map (fun u => map (fun v => norm (dot u (ddot I v))) (basis R)) (basis R).

(** ** Symbols of the equations *)

(** The symbols the emitted equations may refer to. *)
Definition emitted_symbols : list var :=
  [a; b; c; d; e; f; m; g; Ixx; Iyy; Izz; Ixy; Iyz; Ixz; Sy "q1"; Sy "q2"].

(** The renaming of lines 105-106 read backwards. *)
Definition inverse_dict : subs_dict :=
  [ (Sy "q1", Var q.[1]); (Sy "q2", Var q.[2]); (Sy "qd0", Var qd.[0]);
    (Sy "rx", Var r.[0]); (Sy "ry", Var r.[1]); (Sy "rz", Var r.[2]) ].

Definition inertia_scalars : list var := [Ixx; Iyy; Izz; Ixy; Iyz; Ixz].

(** The total degree of a monomial in the symbols of a list. *)
Definition degree_in (vs : list var) (mo : mono) : Q :=
  fold_left (fun acc v => Qred (acc + mono_get mo (AVar v))) vs 0.

(** ** Special bodies *)

(** Equal semi-diameters: the ellipsoid is a ball. *)
Definition round_shape : subs_dict := [ (b, Var a); (c, Var a) ].

(** The mass centre at the centre of the ellipsoid. *)
Definition centred_mass : subs_dict := [ (d, Num 0); (e, Num 0); (f, Num 0) ].

(** A ball with its mass centre at its centre. *)
Definition centred_ball : subs_dict := (round_shape ++ centred_mass)%list.

(** Equal central moments of inertia and no products of inertia. *)
Definition isotropic : subs_dict :=
  [ (Iyy, Var Ixx); (Izz, Var Ixx); (Ixy, Num 0); (Iyz, Num 0); (Ixz, Num 0) ].

(** The expression expands to zero for the body. *)
Definition vanishes (body : subs_dict) (x : expr) : bool :=
  match norm (subs body x) with
  | [] => true
  | _ :: _ => false
  end.

End Further.

(* ------------------------------------------------------------------ *)
(** * Properties *)
(* ------------------------------------------------------------------ *)

Import Sympy Mechanics Cse Rattleback Emit Claimed.

(** ** The loops *)

(** The nested loop of lines 99-102 fills the eight places row by row,
    whatever the list [h] holds. *)
Lemma dh_loop_rows (hh : list expr) :
  dh_loop hh =
  [ diff hh.[0] q.[1]; diff hh.[0] q.[2];
    diff hh.[1] q.[1]; diff hh.[1] q.[2];
    diff hh.[2] q.[1]; diff hh.[2] q.[2];
    diff hh.[3] q.[1]; diff hh.[3] q.[2] ].
Proof. reflexivity. Qed.

(** The loop of lines 94-96 fills the four places, whatever the residuals. *)
Lemma h_loop_rows (ff : list expr) :
  h_loop ff =
  [ subs [(qd.[0], Num 0)] ff.[1]; coeff ff.[1] (pow qd.[0] 2);
    subs [(qd.[0], Num 0)] ff.[2]; coeff ff.[2] (pow qd.[0] 2) ].
Proof. reflexivity. Qed.

(** The generalized speeds of line 15 are the time derivatives of the
    coordinates. *)
Lemma qd_is_diff_q (i : nat) :
  (i < 3)%nat -> Var qd.[i] = diff (Var q.[i]) t.
Proof. intros Hi. destruct i as [|[|[|i]]]; try lia; reflexivity. Qed.

(** ** The assertions *)

(** C3. The derivative of the mass-center velocity taken in the body frame
    [R], under the steady substitution, is the zero vector: no part of it is
    left, so the assertion of line 60 holds; the acceleration of line 62 is
    the cross product of the steady angular velocity and velocity. *)
Theorem steady_velocity_derivative_vanishes :
  vsubs steady_dict (vdiff RO_vel t R) = [] /\
  assert_60 = true /\
  RO_acc = cross R_ang_vel RO_vel.
Proof. repeat apply conj; vm_compute; reflexivity. Qed.

(** C2. Each of the three steady residuals has derivative zero with respect
    to the yaw coordinate [q[0]], which does not occur in it: the assertion
    of line 83 holds in every pass of the loop. *)
Theorem yaw_is_cyclic (i : nat) :
  (i < 3)%nat ->
  diff f_dyn.[i] q.[0] = Num 0 /\
  occurs q.[0] f_dyn.[i] = false /\
  assert_83 i = true.
Proof.
  intros Hi.
  destruct i as [|[|[|i]]]; try lia; repeat apply conj; vm_compute; reflexivity.
Qed.

Lemma yaw_is_cyclic_witness :
  diff f_dyn.[1] q.[0] = Num 0 /\
  occurs q.[0] f_dyn.[1] = false /\
  assert_83 1 = true.
Proof. apply (yaw_is_cyclic 1). lia. Defined.

(** [expand] and [collect] keep the value of each residual, here at two
    rational points; the first residual is 0 there before they touch it. *)
Lemma expansion_keeps_values :
  map (eval body) f_dyn = map (fun i => eval body (residual_unexpanded i)) (range 3) /\
  map (eval ball) f_dyn = map (fun i => eval ball (residual_unexpanded i)) (range 3) /\
  eval body (residual_unexpanded 0) = Some 0.
Proof. repeat apply conj; vm_compute; reflexivity. Qed.

(** C4. The first steady residual, the yaw equation, is the expression 0,
    so the assertion of line 86 holds; the other two residuals are not zero:
    their expanded forms have terms, and they take nonzero values. *)
Theorem yaw_equation_trivial :
  f_dyn.[0] = Num 0 /\
  assert_86 = true /\
  List.length f_dyn = 3%nat /\
  norm f_dyn.[1] <> [] /\ norm f_dyn.[2] <> [] /\
  eval body f_dyn.[1] = Some (-209172314 # 375) /\
  eval body f_dyn.[2] = Some (145841776 # 375).
Proof. repeat apply conj; try (vm_compute; reflexivity); vm_compute; discriminate. Qed.

(** ** The equation family *)

Lemma h_0_length : List.length h_0 = 4%nat.
Proof. vm_compute; reflexivity. Qed.

Lemma dh_0_length : List.length dh_0 = 8%nat.
Proof. vm_compute; reflexivity. Qed.

Lemma h_renamed : h = map (subs symbol_dict) h_0.
Proof. vm_compute; reflexivity. Qed.

Lemma dh_renamed : dh = map (subs symbol_dict) dh_0.
Proof. vm_compute; reflexivity. Qed.

Lemma item_map_subs (dict : subs_dict) (l : list expr) (i : nat) :
  (map (subs dict) l).[i] = subs dict l.[i].
Proof. unfold item. apply (map_nth (subs dict) l (Num 0) i). Qed.

Lemma dh_0_rows (i j : nat) :
  (i < 4)%nat -> (j < 2)%nat -> dh_0.[2 * i + j] = diff h_0.[i] q.[j + 1].
Proof.
  intros Hi Hj. unfold dh_0. rewrite dh_loop_rows.
  destruct i as [|[|[|[|i]]]]; try lia;
    destruct j as [|[|j]]; try lia; reflexivity.
Qed.

(** C5. [h] has four entries and [dh] eight, and [dh[2i+j]] is the
    derivative of [h[i]] with respect to [q[j+1]], row by row: as the loop
    of lines 99-102 stores them, and again after the renaming of lines
    108-111, then with respect to the renamed coordinate. *)
Theorem dh_is_jacobian_of_h (i j : nat) :
  (i < 4)%nat -> (j < 2)%nat ->
  List.length h_0 = 4%nat /\ List.length dh_0 = 8%nat /\
  dh_0.[2 * i + j] = diff h_0.[i] q.[j + 1] /\
  List.length h = 4%nat /\ List.length dh = 8%nat /\
  dh.[2 * i + j] = subs symbol_dict (diff h_0.[i] q.[j + 1]) /\
  dh.[2 * i + j] = diff h.[i] [Sy "q1"; Sy "q2"].[j].
Proof.
  intros Hi Hj.
  split; [exact h_0_length|]. split; [exact dh_0_length|].
  split; [now apply dh_0_rows|].
  split; [rewrite h_renamed, length_map; exact h_0_length|].
  split; [rewrite dh_renamed, length_map; exact dh_0_length|].
  split.
  - rewrite dh_renamed, item_map_subs, dh_0_rows by assumption. reflexivity.
  - destruct i as [|[|[|[|i]]]]; try lia;
      destruct j as [|[|j]]; try lia; vm_compute; reflexivity.
Qed.

Lemma dh_is_jacobian_of_h_witness :
  List.length h_0 = 4%nat /\ List.length dh_0 = 8%nat /\
  dh_0.[2 * 3 + 1] = diff h_0.[3] q.[1 + 1] /\
  List.length h = 4%nat /\ List.length dh = 8%nat /\
  dh.[2 * 3 + 1] = subs symbol_dict (diff h_0.[3] q.[1 + 1]) /\
  dh.[2 * 3 + 1] = diff h.[3] [Sy "q1"; Sy "q2"].[1].
Proof. apply (dh_is_jacobian_of_h 3 1); lia. Defined.

(** C9. The friction coefficient [s] occurs in none of the four [h] nor of
    the eight [dh]; the only applied force is [m*g] along [Y.z]. *)
Theorem friction_absent :
  List.length h = 4%nat /\ List.length dh = 8%nat /\
  Forall (fun x => occurs s x = false) h /\
  Forall (fun x => occurs s x = false) dh /\
  F_RO = vscale (mul m g) (z_ Y).
Proof.
  split; [rewrite h_renamed, length_map; exact h_0_length|].
  split; [rewrite dh_renamed, length_map; exact dh_0_length|].
  split; [|split; [|reflexivity]];
    apply Forall_forall; intros x Hx;
    apply (proj1 (forallb_forall (fun x => negb (occurs s x)) _)) with (x := x) in Hx;
    try (vm_compute; reflexivity);
    now apply negb_true_iff in Hx.
Qed.

Lemma h_0_rows :
  h_0 = [ subs [(qd.[0], Num 0)] f_dyn.[1]; coeff f_dyn.[1] (pow qd.[0] 2);
          subs [(qd.[0], Num 0)] f_dyn.[2]; coeff f_dyn.[2] (pow qd.[0] 2) ].
Proof. unfold h_0. apply h_loop_rows. Qed.

Lemma eval_Add_Mul_comm (rho : valuation) (x y z : expr) :
  eval rho (Add x (Mul y z)) = eval rho (Add x (Mul z y)).
Proof.
  cbn [eval].
  destruct (eval rho x) as [u|], (eval rho y) as [v|], (eval rho z) as [w|];
    cbn [lift2]; try reflexivity.
  replace (Qred (v * w)) with (Qred (w * v))
    by (apply Qred_complete, Qmult_comm).
  reflexivity.
Qed.

(** As the script has built them, the residual is the sum of its value at
    zero spin and of [qd[0]**2] times its coefficient. *)
Lemma f_dyn_shape (k : nat) :
  (k < 2)%nat ->
  f_dyn.[k + 1] = Add h_0.[2 * k] (Mul (Pow qd.[0] 2) h_0.[2 * k + 1]) /\
  add h_0.[2 * k] (mul h_0.[2 * k + 1] (pow qd.[0] 2)) =
    Add h_0.[2 * k] (Mul h_0.[2 * k + 1] (Pow qd.[0] 2)).
Proof.
  intros Hk. destruct k as [|[|k]]; try lia; split; vm_compute; reflexivity.
Qed.

(** C10. For the two nontrivial residuals, [h[2k]] is the residual at zero
    spin and [h[2k+1]] its coefficient of [qd[0]**2], and the residual is
    [h[2k] + h[2k+1]*qd[0]**2]: the two sides have the same expanded form
    and the same value under every valuation, the pair is free of [qd[0]],
    and every term of the residual has degree 0 or 2 in [qd[0]]. *)
Theorem residual_affine_in_spin_squared (k : nat) :
  (k < 2)%nat ->
  h_0.[2 * k] = subs [(qd.[0], Num 0)] f_dyn.[k + 1] /\
  h_0.[2 * k + 1] = coeff f_dyn.[k + 1] (pow qd.[0] 2) /\
  norm f_dyn.[k + 1] = norm (add h_0.[2 * k] (mul h_0.[2 * k + 1] (pow qd.[0] 2))) /\
  (forall rho, eval rho f_dyn.[k + 1] =
               eval rho (add h_0.[2 * k] (mul h_0.[2 * k + 1] (pow qd.[0] 2)))) /\
  occurs qd.[0] h_0.[2 * k] = false /\
  occurs qd.[0] h_0.[2 * k + 1] = false /\
  forallb (fun tm => let dg := mono_get (fst tm) (AVar qd.[0]) in
                     Qeq_bool dg 0 || Qeq_bool dg 2)
          (norm f_dyn.[k + 1]) = true.
Proof.
  intros Hk.
  split; [|split; [|split; [|split]]].
  - rewrite h_0_rows. destruct k as [|[|k]]; try lia; reflexivity.
  - rewrite h_0_rows. destruct k as [|[|k]]; try lia; reflexivity.
  - destruct k as [|[|k]]; try lia; vm_compute; reflexivity.
  - intros rho. destruct (f_dyn_shape k Hk) as [E1 E2].
    rewrite E1, E2. apply eval_Add_Mul_comm.
  - destruct k as [|[|k]]; try lia; repeat apply conj; vm_compute; reflexivity.
Qed.

Lemma residual_affine_in_spin_squared_witness :
  h_0.[2 * 1] = subs [(qd.[0], Num 0)] f_dyn.[1 + 1] /\
  h_0.[2 * 1 + 1] = coeff f_dyn.[1 + 1] (pow qd.[0] 2) /\
  norm f_dyn.[1 + 1] = norm (add h_0.[2 * 1] (mul h_0.[2 * 1 + 1] (pow qd.[0] 2))) /\
  (forall rho, eval rho f_dyn.[1 + 1] =
               eval rho (add h_0.[2 * 1] (mul h_0.[2 * 1 + 1] (pow qd.[0] 2)))) /\
  occurs qd.[0] h_0.[2 * 1] = false /\
  occurs qd.[0] h_0.[2 * 1 + 1] = false /\
  forallb (fun tm => let dg := mono_get (fst tm) (AVar qd.[0]) in
                     Qeq_bool dg 0 || Qeq_bool dg 2)
          (norm f_dyn.[1 + 1]) = true.
Proof. apply (residual_affine_in_spin_squared 1). lia. Defined.

(** ** The contact geometry *)

(** C7, as the specification words it, fails: [eps] is not the quadratic
    form.  On a ball of radius 2 the quadratic form is 4 and [eps] is 2; the
    center lies at distance 2 from the contact point, not at distance 1 as
    the quadratic form in the place of [eps] would have it. *)
Lemma eps_is_not_the_quadratic_form :
  eval ball eps = Some 2 /\
  eval ball eps_claimed = Some 4 /\
  measure_numbers ball O_pos = [(Some 0, Some (-6 # 5), Some (-8 # 5))] /\
  measure_numbers ball O_pos_claimed = [(Some 0, Some (-3 # 5), Some (-4 # 5))] /\
  norm eps <> norm eps_claimed.
Proof. repeat apply conj; try (vm_compute; reflexivity); vm_compute; discriminate. Qed.

(** C7, amended.  The position of [O] from [P] is resolved in [R] with
    measure numbers [-a^2 mu0/eps], [-b^2 mu1/eps], [-c^2 mu2/eps]; [mu_k] is
    the measure number of the inertial vertical along the [k]-th body
    direction; [eps] is the square root of the quadratic form
    [(a mu0)^2 + (b mu1)^2 + (c mu2)^2]; and the only base the measure
    numbers divide by is that quadratic form, under the power [-1/2]. *)
Theorem center_from_contact :
  map (fun part => frame_name (snd part)) O_pos = ["R"%string] /\
  map (fun part => let '(x, y, z) := fst part in [norm x; norm y; norm z]) O_pos =
    [[ norm (neg (div (mul (pow a 2) mu.[0]) eps));
       norm (neg (div (mul (pow b 2) mu.[1]) eps));
       norm (neg (div (mul (pow c 2) mu.[2]) eps)) ]] /\
  map norm mu = map (fun rk => norm (dot rk (z_ N))) (basis R) /\
  quadratic_form =
    add (add (pow (mul a mu.[0]) 2) (pow (mul b mu.[1]) 2)) (pow (mul c mu.[2]) 2) /\
  eps = Pow quadratic_form (1 # 2) /\
  pow eps 2 = quadratic_form /\
  pow eps (-1) = Pow quadratic_form (-1 # 2) /\
  map (fun part => let '(x, y, z) := fst part in [divisors x; divisors y; divisors z]) O_pos =
    [[ [quadratic_form]; [quadratic_form]; [quadratic_form] ]].
Proof. repeat apply conj; vm_compute; reflexivity. Qed.

(** ** Expressions and symbols *)

Lemma string_compare_refl (a : string) : String.compare a a = Eq.
Proof.
  induction a as [|ch a IH]; simpl; [reflexivity|].
  unfold Ascii.compare. now rewrite N.compare_refl.
Qed.

Lemma var_eqb_eq (u v : var) : var_eqb u v = true <-> u = v.
Proof.
  unfold var_eqb, var_compare.
  destruct u as [a|a i], v as [b|b j]; split; intros H; try discriminate.
  - destruct (String.compare a b) eqn:E; try discriminate.
    apply String.compare_eq_iff in E. now subst.
  - injection H as ->. now rewrite string_compare_refl.
  - destruct (String.compare a b) eqn:E; try discriminate.
    apply String.compare_eq_iff in E. subst.
    destruct (Nat.compare i j) eqn:E2; try discriminate.
    apply Nat.compare_eq_iff in E2. now subst.
  - injection H as -> ->.
    rewrite string_compare_refl.
    now rewrite Nat.compare_refl.
Qed.

Lemma Qbeq_eq (p q : Q) : Qbeq p q = true <-> p = q.
Proof.
  unfold Qbeq. destruct p as [a b], q as [c d]; simpl. split.
  - intros H. apply andb_true_iff in H. destruct H as [H1 H2].
    apply Z.eqb_eq in H1. apply Pos.eqb_eq in H2. now subst.
  - intros H. injection H as -> ->. now rewrite Z.eqb_refl, Pos.eqb_refl.
Qed.

Lemma var_beq_eq (u v : var) : var_beq u v = true <-> u = v.
Proof.
  destruct u as [a|a i], v as [b|b j]; simpl; split; intros H; try discriminate.
  - apply String.eqb_eq in H. now subst.
  - injection H as ->. apply String.eqb_refl.
  - apply andb_true_iff in H. destruct H as [H1 H2].
    apply String.eqb_eq in H1. apply Nat.eqb_eq in H2. now subst.
  - injection H as -> ->. now rewrite String.eqb_refl, Nat.eqb_refl.
Qed.

Lemma expr_beq_eq (x y : expr) : expr_beq x y = true <-> x = y.
Proof.
  revert y; induction x as [p|u|a IHa b IHb|a IHa b IHb|a IHa p|a IHa|a IHa];
    intros [q|v|c d|c d|c q|c|c]; simpl; split; intros H; try discriminate.
  - apply Qbeq_eq in H. now subst.
  - injection H as ->. now apply Qbeq_eq.
  - apply var_beq_eq in H. now subst.
  - injection H as ->. now apply var_beq_eq.
  - apply andb_true_iff in H. destruct H as [H1 H2].
    apply IHb in H1. apply IHa in H2. now subst.
  - injection H as -> ->. apply andb_true_iff. split; [now apply IHb | now apply IHa].
  - apply andb_true_iff in H. destruct H as [H1 H2].
    apply IHb in H1. apply IHa in H2. now subst.
  - injection H as -> ->. apply andb_true_iff. split; [now apply IHb | now apply IHa].
  - apply andb_true_iff in H. destruct H as [H1 H2].
    apply Qbeq_eq in H1. apply IHa in H2. now subst.
  - injection H as -> ->. apply andb_true_iff. split; [now apply Qbeq_eq | now apply IHa].
  - apply IHa in H. now subst.
  - injection H as ->. now apply IHa.
  - apply IHa in H. now subst.
  - injection H as ->. now apply IHa.
Qed.

(** ** Soundness of the elimination, for any expressions *)

Lemma xreplace_fresh (z : var) (r e : expr) :
  occurs z e = false -> xreplace z r e = e.
Proof.
  induction e as [p|u|a IHa b IHb|a IHa b IHb|a IHa p|a IHa|a IHa]; simpl; intros H.
  - reflexivity.
  - now rewrite H.
  - apply orb_false_iff in H. destruct H. now rewrite IHa, IHb.
  - apply orb_false_iff in H. destruct H. now rewrite IHa, IHb.
  - now rewrite IHa.
  - now rewrite IHa.
  - now rewrite IHa.
Qed.

Lemma unfold_table_app (t1 t2 : list (var * expr)) (e : expr) :
  unfold_table (t1 ++ t2) e = unfold_table t2 (unfold_table t1 e).
Proof. unfold unfold_table. apply fold_left_app. Qed.

Lemma unfold_table_fresh (t : list (var * expr)) (e : expr) :
  (forall z r, In (z, r) t -> occurs z e = false) -> unfold_table t e = e.
Proof.
  induction t as [|[z r] t IH]; simpl; intros H; [reflexivity|].
  rewrite xreplace_fresh by (apply (H z r); now left).
  apply IH. intros z' r' Hin. apply (H z' r'). now right.
Qed.

Lemma unfold_table_Add t x y :
  unfold_table t (Add x y) = Add (unfold_table t x) (unfold_table t y).
Proof. revert x y; induction t as [|[z r] t IH]; intros; simpl; [reflexivity|apply IH]. Qed.

Lemma unfold_table_Mul t x y :
  unfold_table t (Mul x y) = Mul (unfold_table t x) (unfold_table t y).
Proof. revert x y; induction t as [|[z r] t IH]; intros; simpl; [reflexivity|apply IH]. Qed.

Lemma unfold_table_Pow t x p :
  unfold_table t (Pow x p) = Pow (unfold_table t x) p.
Proof. revert x; induction t as [|[z r] t IH]; intros; simpl; [reflexivity|apply IH]. Qed.

Lemma unfold_table_Sin t x : unfold_table t (Sin x) = Sin (unfold_table t x).
Proof. revert x; induction t as [|[z r] t IH]; intros; simpl; [reflexivity|apply IH]. Qed.

Lemma unfold_table_Cos t x : unfold_table t (Cos x) = Cos (unfold_table t x).
Proof. revert x; induction t as [|[z r] t IH]; intros; simpl; [reflexivity|apply IH]. Qed.

Lemma string_app_inj (p a b : string) : (p ++ a = p ++ b)%string -> a = b.
Proof.
  induction p as [|ch p IH]; simpl; intros H; [exact H|].
  injection H as H. now apply IH.
Qed.

Lemma string_of_uint_inj (d d' : Decimal.uint) :
  NilEmpty.string_of_uint d = NilEmpty.string_of_uint d' -> d = d'.
Proof.
  intros H. pose proof (NilEmpty.usu d) as H1. rewrite H, NilEmpty.usu in H1.
  now injection H1.
Qed.

Lemma numbered_inj (P : string) (n n' : nat) :
  numbered P n = numbered P n' -> n = n'.
Proof.
  unfold numbered. intros H. injection H as H.
  apply string_app_inj, string_of_uint_inj in H.
  now apply DecimalNat.Unsigned.to_uint_inj.
Qed.

Lemma assoc_In (e : expr) (l : list (expr * var)) (z : var) :
  assoc e l = Some z -> In (e, z) l.
Proof.
  induction l as [|[k z'] l IH]; simpl; [discriminate|].
  destruct (expr_beq e k) eqn:E.
  - intros H. injection H as ->. apply expr_beq_eq in E. subst. now left.
  - intros H. right. now apply IH.
Qed.

Section Soundness.

Variable P : string.   (* the prefix of the generator *)
Variable c0 : nat.     (* the index it started from *)

Local Abbreviation fresh_from := (Cse.fresh_from P).
Local Abbreviation temp_below := (Cse.temp_below P).
Local Abbreviation inv := (Cse.inv P c0).
Local Abbreviation post := (Cse.post P c0).
Local Abbreviation post_list := (Cse.post_list P c0).
Local Abbreviation inv_prefix := (Cse.inv_prefix P c0).
Local Abbreviation inv_start := (Cse.inv_start P c0).
Local Abbreviation inv_memo := (Cse.inv_memo P c0).
Local Abbreviation inv_table := (Cse.inv_table P c0).
Local Abbreviation inv_names := (Cse.inv_names P c0).

Lemma fresh_temp (c : nat) (z : var) :
  temp_below c z -> fresh_from c (Var z).
Proof.
  intros [n [Hn ->]] k Hk. simpl.
  destruct (var_eqb (numbered P n) (numbered P k)) eqn:E; [|reflexivity].
  apply var_eqb_eq, numbered_inj in E. lia.
Qed.

Lemma fresh_from_le (c c' : nat) (e : expr) :
  (c <= c')%nat -> fresh_from c e -> fresh_from c' e.
Proof. intros Hle H n Hn. apply H. lia. Qed.

Lemma unfold_table_extend (st : state) (new : list (var * expr)) (e : expr) :
  (forall z r', In (z, r') new ->
     exists n, (counter (gen st) <= n)%nat /\ z = numbered P n) ->
  fresh_from (counter (gen st)) e ->
  unfold_table (new ++ table st) e = unfold_table (table st) e.
Proof.
  intros Hnew Hfresh. rewrite unfold_table_app.
  rewrite (unfold_table_fresh new e); [reflexivity|].
  intros z r' Hin. destruct (Hnew z r' Hin) as [n [Hn ->]]. now apply Hfresh.
Qed.

Lemma post_atom (st : state) (e : expr) :
  inv st -> fresh_from 0 e -> post st e (e, st).
Proof.
  intros Hinv Hfresh. unfold post; simpl.
  split; [exact Hinv|]. split; [lia|].
  split; [exists []; split; [reflexivity|intros ? ? []]|].
  split.
  - apply unfold_table_fresh. intros z r Hin.
    destruct (inv_table st Hinv z r Hin) as [n [_ [-> _]]]. apply Hfresh. lia.
  - apply (fresh_from_le 0); [lia|exact Hfresh].
Qed.

Lemma post_allocate (dup : list expr) (st : state) (e : expr) (r : expr * state) :
  post st e r -> post st e (allocate dup e r).
Proof.
  destruct r as [e1 s1]. unfold allocate.
  destruct (mem e dup); [|trivial].
  intros [Hinv [Hle [[new [Hnew Hidx]] [Hun Hfresh]]]]; cbn -[Nat.sub] in *.
  unfold post; cbn -[Nat.sub].
  assert (Hz : forall z, temp_below (counter (gen s1)) z ->
               var_eqb z (numbered (prefix (gen s1)) (counter (gen s1))) = false).
  { intros z [n [Hn ->]]. rewrite (inv_prefix s1 Hinv).
    destruct (var_eqb _ _) eqn:E; [|reflexivity].
    apply var_eqb_eq, numbered_inj in E. lia. }
  assert (Hzz : var_eqb (numbered (prefix (gen s1)) (counter (gen s1)))
                        (numbered (prefix (gen s1)) (counter (gen s1))) = true)
    by now apply var_eqb_eq.
  split; [constructor; cbn -[Nat.sub]|].
  - exact (inv_prefix s1 Hinv).
  - pose proof (inv_start s1 Hinv). lia.
  - intros k z [Hk|Hk].
    + injection Hk as <- <-. rewrite Hzz. split; [exact Hun|].
      exists (counter (gen s1)). rewrite (inv_prefix s1 Hinv). split; [lia|reflexivity].
    + destruct (inv_memo s1 Hinv k z Hk) as [Hk1 Hk2].
      rewrite (Hz z Hk2). split; [exact Hk1|].
      destruct Hk2 as [n [Hn ->]]. exists n. split; [lia|reflexivity].
  - intros z r [Hk|Hk].
    + injection Hk as <- <-. exists (counter (gen s1)).
      rewrite (inv_prefix s1 Hinv). split; [lia|]. split; [reflexivity|exact Hfresh].
    + destruct (inv_table s1 Hinv z r Hk) as [n [Hn [-> Hr]]].
      exists n. split; [lia|]. split; [reflexivity|exact Hr].
  - cbn [rev map fst app]. rewrite map_app, (inv_names s1 Hinv).
    pose proof (inv_start s1 Hinv) as Hs.
    replace (S (counter (gen s1)) - c0)%nat with (S (counter (gen s1) - c0)) by lia.
    rewrite seq_S, map_app. cbn [map fst]. rewrite (inv_prefix s1 Hinv).
    replace (c0 + (counter (gen s1) - c0))%nat with (counter (gen s1)) by lia.
    reflexivity.
  - split; [lia|]. split.
    + exists ((numbered (prefix (gen s1)) (counter (gen s1)), e1) :: new). split.
      * simpl. now rewrite Hnew.
      * intros z r' [Hk|Hk].
        -- injection Hk as <- _. exists (counter (gen s1)).
           rewrite (inv_prefix s1 Hinv). split; [lia|reflexivity].
        -- now apply (Hidx z r').
    + split.
      * rewrite Hzz. exact Hun.
      * apply fresh_temp. exists (counter (gen s1)).
        rewrite (inv_prefix s1 Hinv). split; [lia|reflexivity].
Qed.

Lemma post_visit (dup : list expr) (st : state) (e : expr)
    (arguments : state -> expr * state) :
  inv st -> post st e (arguments st) -> post st e (visit dup e st arguments).
Proof.
  intros Hinv Hargs. unfold visit.
  destruct (assoc e (memo st)) as [z|] eqn:E.
  - apply assoc_In in E. destruct (inv_memo st Hinv e z E) as [Hun Hz].
    unfold post; simpl.
    split; [exact Hinv|]. split; [lia|].
    split; [exists []; split; [reflexivity|intros ? ? []]|].
    split; [exact Hun|now apply fresh_temp].
  - now apply post_allocate.
Qed.

(** Two arguments rebuilt one after the other, under a constructor that
    [unfold_table] and [occurs] go through. *)
Lemma post_binary (mk : expr -> expr -> expr) (st : state) (x y : expr)
    (rx ry : expr * state) :
  (forall t u v, unfold_table t (mk u v) = mk (unfold_table t u) (unfold_table t v)) ->
  (forall z u v, occurs z (mk u v) = occurs z u || occurs z v) ->
  post st x rx -> post (snd rx) y ry ->
  post st (mk x y) (mk (fst rx) (fst ry), snd ry).
Proof.
  intros Hmk Hocc [Hi1 [Hl1 [[n1 [Ht1 Hn1]] [Hu1 Hf1]]]]
         [Hi2 [Hl2 [[n2 [Ht2 Hn2]] [Hu2 Hf2]]]].
  unfold post; simpl.
  split; [exact Hi2|]. split; [lia|]. split.
  - exists (n2 ++ n1). split.
    + now rewrite Ht2, Ht1, app_assoc.
    + intros z r' Hin. apply in_app_or in Hin. destruct Hin as [Hin|Hin].
      * destruct (Hn2 z r' Hin) as [n [Hn ->]]. exists n. split; [lia|reflexivity].
      * now apply (Hn1 z r').
  - split.
    + rewrite Hmk, Hu2. f_equal.
      rewrite Ht2, unfold_table_extend; assumption.
    + intros n Hn. rewrite Hocc. apply orb_false_iff. split.
      * apply Hf1. lia.
      * now apply Hf2.
Qed.

Lemma post_unary (mk : expr -> expr) (st : state) (x : expr) (rx : expr * state) :
  (forall t u, unfold_table t (mk u) = mk (unfold_table t u)) ->
  (forall z u, occurs z (mk u) = occurs z u) ->
  post st x rx -> post st (mk x) (mk (fst rx), snd rx).
Proof.
  intros Hmk Hocc [Hi1 [Hl1 [Hn1 [Hu1 Hf1]]]].
  unfold post; simpl.
  split; [exact Hi1|]. split; [lia|]. split; [exact Hn1|]. split.
  - now rewrite Hmk, Hu1.
  - intros n Hn. rewrite Hocc. now apply Hf1.
Qed.

Lemma rebuild_sound (dup : list expr) (e : expr) :
  fresh_from 0 e -> forall st, inv st -> post st e (rebuild dup e st).
Proof.
  induction e as [p|u|a IHa b IHb|a IHa b IHb|a IHa p|a IHa|a IHa];
    intros Hfresh st Hinv; simpl.
  - now apply post_atom.
  - now apply post_atom.
  - assert (Ha : fresh_from 0 a)
      by (intros n Hn; specialize (Hfresh n Hn); simpl in Hfresh;
          now apply orb_false_iff in Hfresh).
    assert (Hb : fresh_from 0 b)
      by (intros n Hn; specialize (Hfresh n Hn); simpl in Hfresh;
          now apply orb_false_iff in Hfresh).
    apply post_visit; [exact Hinv|].
    specialize (IHa Ha st Hinv).
    destruct (rebuild dup a st) as [x' s1] eqn:E1.
    assert (Hs1 : inv s1) by apply IHa.
    specialize (IHb Hb s1 Hs1).
    destruct (rebuild dup b s1) as [y' s2] eqn:E2.
    apply (post_binary Add st a b (x', s1) (y', s2));
      [apply unfold_table_Add|reflexivity|exact IHa|exact IHb].
  - assert (Ha : fresh_from 0 a)
      by (intros n Hn; specialize (Hfresh n Hn); simpl in Hfresh;
          now apply orb_false_iff in Hfresh).
    assert (Hb : fresh_from 0 b)
      by (intros n Hn; specialize (Hfresh n Hn); simpl in Hfresh;
          now apply orb_false_iff in Hfresh).
    apply post_visit; [exact Hinv|].
    specialize (IHa Ha st Hinv).
    destruct (rebuild dup a st) as [x' s1] eqn:E1.
    assert (Hs1 : inv s1) by apply IHa.
    specialize (IHb Hb s1 Hs1).
    destruct (rebuild dup b s1) as [y' s2] eqn:E2.
    apply (post_binary Mul st a b (x', s1) (y', s2));
      [apply unfold_table_Mul|reflexivity|exact IHa|exact IHb].
  - apply post_visit; [exact Hinv|].
    specialize (IHa Hfresh st Hinv).
    destruct (rebuild dup a st) as [x' s1] eqn:E1.
    apply (post_unary (fun u => Pow u p) st a (x', s1));
      [intros; apply unfold_table_Pow|reflexivity|exact IHa].
  - apply post_visit; [exact Hinv|].
    specialize (IHa Hfresh st Hinv).
    destruct (rebuild dup a st) as [x' s1] eqn:E1.
    apply (post_unary Sin st a (x', s1));
      [apply unfold_table_Sin|reflexivity|exact IHa].
  - apply post_visit; [exact Hinv|].
    specialize (IHa Hfresh st Hinv).
    destruct (rebuild dup a st) as [x' s1] eqn:E1.
    apply (post_unary Cos st a (x', s1));
      [apply unfold_table_Cos|reflexivity|exact IHa].
Qed.

Lemma rebuild_all_sound (dup : list expr) (es : list expr) :
  (forall e, In e es -> fresh_from 0 e) ->
  forall st, inv st -> post_list st es (rebuild_all dup es st).
Proof.
  induction es as [|e es IH]; intros Hfresh st Hinv; simpl.
  - unfold post_list; simpl.
    split; [exact Hinv|]. split; [lia|].
    split; [exists []; split; [reflexivity|intros ? ? []]|].
    split; [reflexivity|intros ? []].
  - pose proof (rebuild_sound dup e (Hfresh e (or_introl eq_refl)) st Hinv) as He.
    destruct (rebuild dup e st) as [e' s1] eqn:E1.
    destruct He as [Hi1 [Hl1 [[n1 [Ht1 Hn1]] [Hu1 Hf1]]]]; simpl in *.
    assert (Hes : forall e0, In e0 es -> fresh_from 0 e0)
      by (intros e0 Hin; apply Hfresh; now right).
    pose proof (IH Hes s1 Hi1) as Hall.
    destruct (rebuild_all dup es s1) as [r s2] eqn:E2.
    destruct Hall as [Hi2 [Hl2 [[n2 [Ht2 Hn2]] [Hu2 Hf2]]]]; simpl in *.
    unfold post_list; simpl.
    split; [exact Hi2|]. split; [lia|]. split.
    + exists (n2 ++ n1). split.
      * now rewrite Ht2, Ht1, app_assoc.
      * intros z r' Hin. apply in_app_or in Hin. destruct Hin as [Hin|Hin].
        -- destruct (Hn2 z r' Hin) as [n [Hn ->]]. exists n. split; [lia|reflexivity].
        -- now apply (Hn1 z r').
    + split.
      * f_equal; [|exact Hu2].
        rewrite Ht2, unfold_table_extend; assumption.
      * intros e0 [<-|Hin].
        -- apply (fresh_from_le (counter (gen s1))); [lia|exact Hf1].
        -- now apply Hf2.
Qed.

End Soundness.

(** For any expressions in which no symbol of the generator occurs, the
    table put back into the reduced expressions gives the expressions, the
    temporaries of the table are the generator's symbols in order, and the
    expression of each temporary refers to no temporary but earlier ones. *)
Theorem cse_sound (exprs : list expr) (symbols : generator) :
  (forall e n, In e exprs -> occurs (numbered (prefix symbols) n) e = false) ->
  map (xreplace_back (fst (cse exprs symbols))) (snd (cse exprs symbols)) = exprs /\
  map fst (fst (cse exprs symbols)) =
    map (numbered (prefix symbols))
        (seq (counter symbols) (List.length (fst (cse exprs symbols)))) /\
  (forall z r, In (z, r) (fst (cse exprs symbols)) ->
     exists n, z = numbered (prefix symbols) n /\
               forall k, (n <= k)%nat -> occurs (numbered (prefix symbols) k) r = false).
Proof.
  intros Hfresh. unfold cse.
  set (dup := snd (fold_left (fun st e => find_repeated e st) exprs ([], []))).
  set (st0 := {| memo := []; table := []; gen := symbols |}).
  assert (Hinv : inv (prefix symbols) (counter symbols) st0).
  { constructor; cbn -[Nat.sub].
    - reflexivity.
    - lia.
    - intros ? ? [].
    - intros ? ? [].
    - now rewrite Nat.sub_diag. }
  assert (Hf : forall e, In e exprs -> fresh_from (prefix symbols) 0 e)
    by (intros e Hin n _; now apply Hfresh).
  pose proof (rebuild_all_sound (prefix symbols) (counter symbols) dup exprs Hf st0 Hinv)
    as [Hi [Hl [_ [Hu _]]]].
  destruct (rebuild_all dup exprs st0) as [red st]; simpl in *.
  split; [|split].
  - unfold xreplace_back. rewrite rev_involutive. exact Hu.
  - rewrite (inv_names _ _ _ Hi). rewrite length_rev.
    rewrite <- (length_map fst (table st)), <- (length_rev (map fst (table st))).
    rewrite <- map_rev, (inv_names _ _ _ Hi), length_map, length_seq.
    reflexivity.
  - intros z r Hin. apply in_rev in Hin.
    destruct (inv_table _ _ _ Hi z r Hin) as [n [_ [-> Hr]]].
    exists n. split; [reflexivity|exact Hr].
Qed.

Lemma prefix_app (P a : string) : String.prefix P (P ++ a) = true.
Proof.
  induction P as [|ch P IH]; simpl; [now destruct a|].
  destruct (ascii_dec ch ch) as [_|Hne]; [exact IH|congruence].
Qed.

Lemma free_of_prefix_fresh (P : string) (e : expr) :
  free_of_prefix P e = true -> forall n, occurs (numbered P n) e = false.
Proof.
  intros Hfree n.
  induction e as [p|u|a IHa b IHb|a IHa b IHb|a IHa p|a IHa|a IHa]; simpl in *.
  - reflexivity.
  - destruct (var_eqb u (numbered P n)) eqn:E; [|reflexivity].
    apply var_eqb_eq in E. subst u. unfold numbered in Hfree. simpl in Hfree.
    now rewrite prefix_app in Hfree.
  - apply andb_true_iff in Hfree. destruct Hfree. now rewrite IHa, IHb.
  - apply andb_true_iff in Hfree. destruct Hfree. now rewrite IHa, IHb.
  - now apply IHa.
  - now apply IHa.
  - now apply IHa.
Qed.

Lemma all_free_of_prefix (P : string) (es : list expr) :
  forallb (free_of_prefix P) es = true ->
  forall e n, In e es -> occurs (numbered P n) e = false.
Proof.
  intros Hall e n Hin. apply free_of_prefix_fresh.
  now apply (proj1 (forallb_forall _ _) Hall).
Qed.

(** ** The two tables *)

Lemma h_free_of_z : forallb (free_of_prefix "z") h = true.
Proof. vm_compute; reflexivity. Qed.

Lemma dh_free_of_z : forallb (free_of_prefix "z") dh = true.
Proof. vm_compute; reflexivity. Qed.

(** C1. For each of the two runs, substituting the table back into the
    reduced expressions gives the expressions the run was given, entry by
    entry, four for [h] and eight for [dh]: with [subs], the last temporary
    first, and as well with the replacement that rebuilds the tree as it
    is. *)
Theorem cse_round_trip :
  List.length h_red = 4%nat /\
  map (subs_back z_h) h_red = h /\
  map (xreplace_back z_h) h_red = h /\
  List.length dh_red = 8%nat /\
  map (subs_back z_dh) dh_red = dh /\
  map (xreplace_back z_dh) dh_red = dh.
Proof.
  pose proof h_free_of_z as Hh.
  pose proof dh_free_of_z as Hdh.
  split; [vm_compute; reflexivity|].
  split; [vm_compute; reflexivity|].
  split; [exact (proj1 (cse_sound h (numbered_symbols "z")
                          (all_free_of_prefix "z" h Hh)))|].
  split; [vm_compute; reflexivity|].
  split; [vm_compute; reflexivity|].
  exact (proj1 (cse_sound dh (numbered_symbols "z")
                  (all_free_of_prefix "z" dh Hdh))).
Qed.

Lemma z_h_names :
  map fst z_h = map (numbered "z") (range (List.length z_h)).
Proof.
  exact (proj1 (proj2 (cse_sound h (numbered_symbols "z")
                         (all_free_of_prefix "z" h h_free_of_z)))).
Qed.

Lemma z_dh_names :
  map fst z_dh = map (numbered "z") (range (List.length z_dh)).
Proof.
  exact (proj1 (proj2 (cse_sound dh (numbered_symbols "z")
                         (all_free_of_prefix "z" dh dh_free_of_z)))).
Qed.


(** ** The write *)

Lemma script_run (D : derivation) (tr : list event) :
  match rendered D with
  | Some code =>
      if all_pass D
      then script D tr =
           (inr tt, (tr ++ [FileOpen "ellipsoid_no_slip_steady.txt" "w";
                            FileWrite code; FileClose])%list)
      else exists err, script D tr = (inl err, tr)
  | None => exists err, script D tr = (inl err, tr)
  end.
Proof.
  unfold script, all_pass, range; cbn [seq forallb for_].
  destruct (rendered D) as [code|];
    destruct (check_60 D), (check_83 D 0), (check_83 D 1), (check_83 D 2),
             (check_86 D);
    cbn; unfold bind, assert_, ret, raise, emit, call; cbn;
    repeat rewrite <- app_assoc; cbn; eauto.
Qed.

(** C8. Whatever the derivation yields, the run either raises with the
    trace of file events untouched, or every assertion has passed and the
    text is rendered, and then the file is opened, written once with the
    whole text, and closed.  The script's own run is of the second kind. *)
Theorem write_only_after_success (ccode : expr -> string) :
  (forall (D : derivation) (tr : list event),
     match rendered D with
     | Some code =>
         if all_pass D
         then script D tr =
              (inr tt, (tr ++ [FileOpen "ellipsoid_no_slip_steady.txt" "w";
                               FileWrite code; FileClose])%list)
         else exists err, script D tr = (inl err, tr)
     | None => exists err, script D tr = (inl err, tr)
     end) /\
  main ccode [] =
    (inr tt, [FileOpen "ellipsoid_no_slip_steady.txt" "w";
              FileWrite (output_code ccode); FileClose]).
Proof.
  split; [exact script_run|].
  assert (Hall : all_pass (the_derivation ccode) = true).
  { unfold all_pass, the_derivation; cbn [check_60 check_83 check_86].
    vm_compute; reflexivity. }
  pose proof (script_run (the_derivation ccode) []) as Hrun.
  rewrite Hall in Hrun. exact Hrun.
Qed.

(* ------------------------------------------------------------------ *)
(** * Further properties *)
(* ------------------------------------------------------------------ *)

Import Further.

(** ** The rewriting of temporaries, line 140 *)

Lemma starts_with_digit_app (ds rest : string) :
  ds <> EmptyString -> starts_with_digit (ds ++ rest) = starts_with_digit ds.
Proof. destruct ds; [congruence|reflexivity]. Qed.

Lemma re_sub_closes (rest : string) :
  starts_with_digit rest = false ->
  re_sub rest true = ("]" ++ re_sub rest false)%string.
Proof.
  destruct rest as [|ch rest]; [reflexivity|].
  cbn [starts_with_digit]. intros H. cbn [re_sub andb]. rewrite H.
  cbn [append]. destruct (Ascii.eqb ch "z" && starts_with_digit rest); reflexivity.
Qed.

Lemma re_sub_digits (ds rest : string) :
  all_digits ds = true -> starts_with_digit rest = false ->
  re_sub (ds ++ rest) true = (ds ++ "]" ++ re_sub rest false)%string.
Proof.
  induction ds as [|ch ds IH]; intros Hd Hr.
  - simpl. now apply re_sub_closes.
  - simpl in Hd. apply andb_true_iff in Hd. destruct Hd as [Hch Hds].
    simpl. rewrite Hch. simpl. f_equal. now apply IH.
Qed.

Lemma all_digits_uint (d : Decimal.uint) :
  all_digits (NilEmpty.string_of_uint d) = true.
Proof. induction d; simpl; trivial. Qed.

Lemma str_nat_nonempty (k : nat) : str_nat k <> EmptyString.
Proof.
  unfold str_nat. intros H.
  assert (Hnil : Nat.to_uint k = Decimal.Nil)
    by (apply string_of_uint_inj; exact H).
  pose proof (DecimalNat.Unsigned.of_to k) as Hk. rewrite Hnil in Hk.
  simpl in Hk. subst k. discriminate Hnil.
Qed.

Lemma re_sub_numbered (k : nat) (rest : string) :
  starts_with_digit rest = false ->
  re_sub (str_var (numbered "z" k) ++ rest) false =
  ("z[" ++ str_nat k ++ "]" ++ re_sub rest false)%string.
Proof.
  intros Hrest. unfold numbered, str_var. fold (str_nat k).
  change (("z" ++ str_nat k) ++ rest)%string
    with (String "z"%char (str_nat k ++ rest)).
  assert (Hd : all_digits (str_nat k) = true) by apply all_digits_uint.
  assert (Hs : starts_with_digit (str_nat k ++ rest) = true).
  { rewrite starts_with_digit_app by apply str_nat_nonempty.
    pose proof (str_nat_nonempty k) as Hne.
    destruct (str_nat k) as [|ch s]; [congruence|].
    simpl in Hd. apply andb_true_iff in Hd. now destruct Hd. }
  cbn [re_sub andb]. rewrite Hs.
  change (Ascii.eqb "z" "z") with true. cbn [andb append].
  rewrite re_sub_digits by assumption. reflexivity.
Qed.

Lemma re_sub_assignment (k : nat) (rhs : string) :
  re_sub (statement (str_var (numbered "z" k)) rhs) false =
  ("  z[" ++ str_nat k ++ "] = "
   ++ re_sub (rhs ++ ";" ++ String newline EmptyString) false)%string.
Proof.
  unfold statement. cbn [append re_sub andb Ascii.eqb Bool.eqb].
  rewrite re_sub_numbered by reflexivity. reflexivity.
Qed.

(** X1. The temporary of index [k] is rendered as the array element
    [z[k]], for every [k]: where it is read, followed by anything but a
    digit, and where it is assigned. *)
Theorem temporary_becomes_array_element (k : nat) (rest rhs : string) :
  starts_with_digit rest = false ->
  re_sub (str_var (numbered "z" k) ++ rest) false =
    ("z[" ++ str_nat k ++ "]" ++ re_sub rest false)%string /\
  re_sub (statement (str_var (numbered "z" k)) rhs) false =
    ("  z[" ++ str_nat k ++ "] = "
     ++ re_sub (rhs ++ ";" ++ String newline EmptyString) false)%string.
Proof.
  intros Hrest. split; [now apply re_sub_numbered|apply re_sub_assignment].
Qed.

Lemma temporary_becomes_array_element_witness :
  re_sub (str_var (numbered "z" 12) ++ "*a") false =
    ("z[" ++ str_nat 12 ++ "]" ++ re_sub "*a" false)%string /\
  re_sub (statement (str_var (numbered "z" 12)) "z3 + 1") false =
    ("  z[" ++ str_nat 12 ++ "] = "
     ++ re_sub ("z3 + 1" ++ ";" ++ String newline EmptyString) false)%string.
Proof. apply (temporary_becomes_array_element 12 "*a" "z3 + 1"). reflexivity. Defined.

Lemma re_sub_fixed (text : string) :
  no_match text = true -> re_sub text false = text.
Proof.
  induction text as [|ch rest IH]; intros H; [reflexivity|].
  simpl in H. apply andb_true_iff in H. destruct H as [Hch Hrest].
  apply negb_true_iff in Hch. cbn [re_sub andb]. rewrite Hch.
  cbn [append]. f_equal. now apply IH.
Qed.

Lemma starts_with_digit_re_sub (text : string) :
  starts_with_digit (re_sub text false) = starts_with_digit text.
Proof.
  destruct text as [|ch rest]; [reflexivity|].
  cbn [re_sub andb].
  destruct (Ascii.eqb ch "z" && starts_with_digit rest) eqn:E; cbn [append].
  - apply andb_true_iff in E. destruct E as [E _].
    apply Ascii.eqb_eq in E. subst ch. reflexivity.
  - reflexivity.
Qed.

Lemma no_match_re_sub (text : string) (in_match : bool) :
  no_match (re_sub text in_match) = true.
Proof.
  revert in_match. induction text as [|ch rest IH]; intros [|]; try reflexivity.
  - cbn [re_sub andb]. destruct (is_digit ch) eqn:Hd.
    + cbn [no_match]. rewrite IH.
      destruct (Ascii.eqb ch "z") eqn:Ez; [|reflexivity].
      apply Ascii.eqb_eq in Ez. subst ch. discriminate Hd.
    + destruct (Ascii.eqb ch "z" && starts_with_digit rest) eqn:E.
      * cbn [append no_match]. rewrite IH. reflexivity.
      * cbn [append no_match]. rewrite IH, starts_with_digit_re_sub, E.
        reflexivity.
  - cbn [re_sub andb].
    destruct (Ascii.eqb ch "z" && starts_with_digit rest) eqn:E.
    + cbn [append no_match]. rewrite IH. reflexivity.
    + cbn [append no_match]. rewrite IH, starts_with_digit_re_sub, E.
      reflexivity.
Qed.

(** X2. A text in which no [z] stands directly before a digit is left as it
    is, so names such as [Izz] and [rz] are not touched; the rewritten text
    is such a text, so rewriting it again changes nothing. *)
Theorem rewriting_is_idempotent (text other : string) :
  no_match other = true ->
  re_sub other false = other /\
  no_match (re_sub text false) = true /\
  re_sub (re_sub text false) false = re_sub text false.
Proof.
  intros Hother. split; [now apply re_sub_fixed|].
  split; [apply no_match_re_sub|].
  apply re_sub_fixed, no_match_re_sub.
Qed.

Lemma rewriting_is_idempotent_witness :
  re_sub "  h[0] = Izz*rz + zeta;" false = "  h[0] = Izz*rz + zeta;"%string /\
  no_match (re_sub "  h[1] = z12*z3;" false) = true /\
  re_sub (re_sub "  h[1] = z12*z3;" false) false = re_sub "  h[1] = z12*z3;" false.
Proof.
  apply (rewriting_is_idempotent "  h[1] = z12*z3;" "  h[0] = Izz*rz + zeta;").
  reflexivity.
Defined.




(** A text that has lost the brackets it had is no rewriting of this kind,
    whatever brackets it has gained. *)
Lemma dropped_brackets_are_missed :
  ~ inserts_brackets "  h[0] = z12;" "  h0 = z[12];".
Proof.
  intros H.
  repeat match goal with
         | H : inserts_brackets (String _ _) (String _ _) |- _ =>
             inversion H; subst; clear H
         end.
Qed.


(** ** The text, lines 117-140 *)

Lemma append_assoc (u v w : string) : ((u ++ v) ++ w = u ++ (v ++ w))%string.
Proof. induction u as [|ch u IH]; simpl; [reflexivity|now rewrite IH]. Qed.

Lemma starts_with_digit_line (u v w : string) (sep : ascii) :
  starts_with_digit (u ++ String sep v) = starts_with_digit (u ++ String sep w).
Proof. destruct u; reflexivity. Qed.

Lemma re_sub_at_separator (sep : ascii) (u v : string) (in_match : bool) :
  is_digit sep = false -> Ascii.eqb sep "z" = false ->
  re_sub (u ++ String sep v) in_match =
  (re_sub (u ++ String sep EmptyString) in_match ++ re_sub v false)%string.
Proof.
  intros Hd Hz. revert in_match.
  induction u as [|ch u IH]; intros in_match.
  - cbn [append re_sub]. rewrite Hd, Hz, andb_false_r. cbn [andb].
    destruct in_match; reflexivity.
  - cbn [append re_sub].
    rewrite (starts_with_digit_line u v EmptyString sep).
    destruct (in_match && is_digit ch).
    + cbn [append]. now rewrite IH.
    + destruct (Ascii.eqb ch "z" && starts_with_digit (u ++ String sep EmptyString)).
      * rewrite IH, !append_assoc. reflexivity.
      * rewrite IH, !append_assoc. reflexivity.
Qed.

Lemma re_sub_concat_lines (ls : list string) :
  Forall ends_line ls ->
  re_sub (concat_lines ls) false = concat_lines (map (fun l => re_sub l false) ls).
Proof.
  induction 1 as [|l ls [l' ->] _ IH]; [reflexivity|].
  cbn [concat_lines map]. rewrite append_assoc. cbn [append].
  rewrite re_sub_at_separator by reflexivity. now rewrite IH.
Qed.

Lemma concat_lines_app (l1 l2 : list string) :
  concat_lines (l1 ++ l2) = (concat_lines l1 ++ concat_lines l2)%string.
Proof.
  induction l1 as [|l l1 IH]; [reflexivity|].
  cbn [app concat_lines]. now rewrite IH, append_assoc.
Qed.

Lemma append_empty (u : string) : (u ++ EmptyString)%string = u.
Proof. induction u as [|ch u IH]; simpl; [reflexivity|now rewrite IH]. Qed.

Lemma assignments_lines (ccode : expr -> string) (z : list (var * expr)) (out : string) :
  assignments ccode z out =
  (out ++ concat_lines (map (fun zi => statement (str_var (fst zi)) (ccode (snd zi))) z))%string.
Proof.
  unfold assignments. revert out.
  induction z as [|zi z IH]; intros out; cbn [fold_left map concat_lines].
  - now rewrite append_empty.
  - rewrite IH, append_assoc. reflexivity.
Qed.

Lemma results_lines (ccode : expr -> string) (name : string) (red : list expr)
    (l : list nat) (out : string) :
  fold_left (fun out i =>
               (out ++ "  " ++ name ++ "[" ++ str_nat i ++ "] = " ++ ccode red.[i] ++ ";" ++ "
")%string) l out =
  (out ++ concat_lines
            (map (fun i => statement (name ++ "[" ++ str_nat i ++ "]") (ccode red.[i])) l))%string.
Proof.
  revert out.
  induction l as [|i l IH]; intros out; cbn [fold_left map concat_lines].
  - now rewrite append_empty.
  - rewrite IH, append_assoc. do 2 f_equal.
    unfold statement. rewrite !append_assoc. reflexivity.
Qed.

Lemma statement_ends_line (lhs rhs : string) : ends_line (statement lhs rhs).
Proof.
  exists ("  " ++ lhs ++ " = " ++ rhs ++ ";")%string.
  unfold statement. rewrite !append_assoc. reflexivity.
Qed.

Lemma statements_end {A : Type} (lhs rhs : A -> string) (l : list A) :
  Forall ends_line (map (fun x => statement (lhs x) (rhs x)) l).
Proof.
  apply Forall_forall. intros s Hs. apply in_map_iff in Hs.
  destruct Hs as [x [<- _]]. apply statement_ends_line.
Qed.

Lemma lines_end (ccode : expr -> string) zh hr zdh dhr :
  Forall ends_line (lines_of ccode zh hr zdh dhr).
Proof.
  unfold lines_of.
  apply Forall_app; split.
  { constructor; [|constructor]. now exists "  // Intermediate variables for h's"%string. }
  apply Forall_app; split.
  { exact (statements_end (fun zi => str_var (fst zi)) (fun zi => ccode (snd zi)) zh). }
  apply Forall_app; split.
  { constructor; [|constructor]. now exists "
  // h's"%string. }
  apply Forall_app; split.
  { exact (statements_end (fun i => ("h[" ++ str_nat i ++ "]")%string)
                          (fun i => ccode hr.[i]) (range 4)). }
  apply Forall_app; split.
  { constructor; [|constructor]. now exists "
  // Intermediate variables for dh's"%string. }
  apply Forall_app; split.
  { exact (statements_end (fun zi => str_var (fst zi)) (fun zi => ccode (snd zi)) zdh). }
  apply Forall_app; split.
  { constructor; [|constructor]. now exists "
  // dh's"%string. }
  exact (statements_end (fun i => ("dh[" ++ str_nat i ++ "]")%string)
                        (fun i => ccode dhr.[i]) (range 8)).
Qed.

Lemma text_of_lines (ccode : expr -> string) zh hr zdh dhr :
  text_of ccode zh hr zdh dhr =
  re_sub (concat_lines (lines_of ccode zh hr zdh dhr)) false.
Proof.
  unfold text_of, results, lines_of.
  rewrite !assignments_lines, !results_lines.
  rewrite !concat_lines_app. cbn [concat_lines].
  rewrite !append_assoc. cbn [append]. reflexivity.
Qed.

Lemma output_code_is_text (ccode : expr -> string) :
  output_code ccode = text_of ccode z_h h_red z_dh dh_red.
Proof. unfold output_code, text_of. reflexivity. Qed.

(** X4. The emitted text is, in this order, the header of the [h] table, one
    statement per entry of it, the header and the four statements of [h],
    then the same for [dh] with eight statements; and the rewriting of line
    140 acts within each line, whatever the expression printer. *)
Theorem text_is_rewritten_line_by_line (ccode : expr -> string) :
  output_code ccode = concat_lines (map (fun l => re_sub l false) (lines ccode)).
Proof.
  rewrite output_code_is_text, text_of_lines. unfold lines.
  apply re_sub_concat_lines, lines_end.
Qed.

Lemma table_block (ccode : expr -> string) (tbl : list (var * expr)) (ks : list nat) :
  map fst tbl = map (numbered "z") ks ->
  map (fun zi => re_sub (statement (str_var (fst zi)) (ccode (snd zi))) false) tbl =
  map (fun kr => ("  z[" ++ str_nat (fst kr) ++ "] = "
                  ++ re_sub (ccode (snd kr) ++ ";" ++ String newline EmptyString) false)%string)
      (combine ks (map snd tbl)).
Proof.
  revert ks. induction tbl as [|[z r] tbl IH]; intros [|k ks] Hn;
    try discriminate; try reflexivity.
  cbn [map fst snd combine] in *.
  injection Hn as Hz Hn. subst z.
  rewrite re_sub_assignment. f_equal. now apply IH.
Qed.

(** X5. In the emitted text the statements of either table assign
    [z[0]], [z[1]], ... in this order, one per entry of the table, whatever
    the expression printer. *)
Theorem tables_assign_array_in_order (ccode : expr -> string) :
  map (fun zi => re_sub (statement (str_var (fst zi)) (ccode (snd zi))) false) z_h =
  map (fun kr => ("  z[" ++ str_nat (fst kr) ++ "] = "
                  ++ re_sub (ccode (snd kr) ++ ";" ++ String newline EmptyString) false)%string)
      (combine (range (List.length z_h)) (map snd z_h)) /\
  map (fun zi => re_sub (statement (str_var (fst zi)) (ccode (snd zi))) false) z_dh =
  map (fun kr => ("  z[" ++ str_nat (fst kr) ++ "] = "
                  ++ re_sub (ccode (snd kr) ++ ";" ++ String newline EmptyString) false)%string)
      (combine (range (List.length z_dh)) (map snd z_dh)).
Proof.
  split.
  - exact (table_block ccode z_h (range (List.length z_h)) z_h_names).
  - exact (table_block ccode z_dh (range (List.length z_dh)) z_dh_names).
Qed.

(** ** The run, lines 60, 83, 86 and 142-144 *)

(** X6. The error of a run names the first assertion that fails, in the
    order of the lines, and a failure of the rendering comes last; in each
    case nothing has been done to the file. *)
Theorem first_failure_is_reported (D : derivation) (tr : list event) :
  (check_60 D = false -> script D tr = (inl (AssertionError 60), tr)) /\
  (check_60 D = true -> forallb (check_83 D) (range 3) = false ->
   script D tr = (inl (AssertionError 83), tr)) /\
  (check_60 D = true -> forallb (check_83 D) (range 3) = true ->
   check_86 D = false -> script D tr = (inl (AssertionError 86), tr)) /\
  (all_pass D = true -> rendered D = None -> script D tr = (inl LibraryError, tr)).
Proof.
  unfold script, all_pass, range; cbn [seq forallb for_].
  destruct (check_60 D), (check_83 D 0), (check_83 D 1), (check_83 D 2),
           (check_86 D), (rendered D);
    cbn; repeat split; intros; try discriminate; reflexivity.
Qed.

Lemma first_failure_is_reported_witness :
  script fails_at_60 [] = (inl (AssertionError 60), []).
Proof. apply (proj1 (first_failure_is_reported fails_at_60 [])). reflexivity. Defined.

(** ** Kinematics, lines 27-62 *)

(** X7. The body rolls about its contact point: the velocity of the mass
    centre is the angular velocity crossed into its position from the
    contact point [P], so it has no component along that position nor along
    the angular velocity, and the velocity of the centre [O] has none along
    the position of [O]. *)
Theorem rolling_without_slip :
  resolved RO_vel_0 = resolved (cross R_ang_vel_0 P_to_RO) /\
  norm (dot RO_vel_0 P_to_RO) = [] /\
  norm (dot O_vel_0 O_pos) = [] /\
  norm (dot RO_vel_0 R_ang_vel_0) = [].
Proof. repeat apply conj; vm_compute; reflexivity. Qed.

(** X8. The partial angular velocities are the three rotation axes [Y.z],
    [Y.x], [L.y]; the angular velocity and the velocity of the mass centre
    are the sums of the speeds times their partial velocities; each partial
    velocity is the partial angular velocity crossed into the position from
    [P]; and no speed occurs in a partial velocity. *)
Theorem velocities_linear_in_speeds :
  partial_w = [z_ Y; x_ Y; y_ L] /\
  combine_speeds partial_w = R_ang_vel_0 /\
  resolved (combine_speeds partial_v_RO) = resolved RO_vel_0 /\
  map resolved partial_v_RO = map (fun pw => resolved (cross pw P_to_RO)) partial_w /\
  forallb (fun pv => forallb (fun qdi => negb (occurs_in_vector qdi pv)) qd)
          (partial_w ++ partial_v_RO) = true.
Proof. repeat apply conj; vm_compute; reflexivity. Qed.

(** X9. Under steady motion the angular velocity is [qd[0]*Y.z] and the
    velocities are [qd[0]] times the yaw partial velocities; no symbol that
    [steady_dict] sets to zero is left in them, and substituting again
    changes nothing. *)
Theorem steady_velocities :
  R_ang_vel = vscale qd.[0] (z_ Y) /\
  resolved O_vel = resolved (vscale qd.[0] (cross (z_ Y) O_pos)) /\
  resolved RO_vel = resolved (vscale qd.[0] partial_v_RO.[0]) /\
  forallb (fun v => forallb (fun key => negb (occurs_in_vector (fst key) v)) steady_dict)
          [O_vel; RO_vel; R_ang_vel] = true /\
  map (vsubs steady_dict) [O_vel; RO_vel; R_ang_vel] = [O_vel; RO_vel; R_ang_vel].
Proof. repeat apply conj; vm_compute; reflexivity. Qed.

(** X10. The acceleration of line 62 is centripetal:
    [qd[0]**2 * Y.z x (Y.z x r)] for the position [r] of the mass centre
    from [P], with no component along the angular velocity nor along the
    velocity. *)
Theorem acceleration_is_centripetal :
  resolved RO_acc =
    resolved (vscale (pow qd.[0] 2) (cross (z_ Y) (cross (z_ Y) P_to_RO))) /\
  norm (dot RO_acc R_ang_vel) = [] /\
  norm (dot RO_acc RO_vel) = [].
Proof. repeat apply conj; vm_compute; reflexivity. Qed.

(** ** Dynamics, lines 65-96 *)

(** X11. The inertia force and the inertia torque have no component along
    the steady angular velocity, and the two parts of the yaw residual are
    each the expression 0; the loop of lines 79-82 leaves three residuals,
    each the sum of its active and its inertia part. *)
Theorem yaw_residual_parts_vanish :
  norm (dot R_star R_ang_vel) = [] /\
  norm (dot T_star R_ang_vel) = [] /\
  f_r.[0] = Num 0 /\ f_r_star.[0] = Num 0 /\
  List.length f_r = 3%nat /\ List.length f_r_star = 3%nat /\
  f_dyn = [add f_r.[0] f_r_star.[0]; add f_r.[1] f_r_star.[1]; add f_r.[2] f_r_star.[2]].
Proof. repeat apply conj; vm_compute; reflexivity. Qed.

(** X12. The residuals at zero spin, [h[0]] and [h[2]], are gravity alone:
    every term has [m] and [g] to the first power and no inertia scalar
    occurs.  The coefficients of the squared spin, [h[1]] and [h[3]], are
    inertia alone: [g] does not occur and every term has degree 1 in the
    mass and the inertia scalars together. *)
Theorem gravity_and_inertia_separate :
  forallb (fun x => forallb (fun tm => Qeq_bool (mono_get (fst tm) (AVar m)) 1
                                       && Qeq_bool (mono_get (fst tm) (AVar g)) 1)
                            (norm x)
                    && forallb (fun v => negb (occurs v x)) inertia_scalars)
          [h_0.[0]; h_0.[2]] = true /\
  forallb (fun x => negb (occurs g x)
                    && forallb (fun tm => Qeq_bool (degree_in (m :: inertia_scalars) (fst tm)) 1)
                               (norm x))
          [h_0.[1]; h_0.[3]] = true.
Proof. repeat apply conj; vm_compute; reflexivity. Qed.

(** ** The emitted equations, lines 93-126 *)

(** X13. After the renaming of lines 108-111 the twelve expressions refer
    to plain symbols only, exactly the semi-diameters, the mass centre
    offsets, the mass, gravity, the six inertia scalars and the two renamed
    angles: no function of time, no yaw angle, no spin rate, no [r], no [s].
    Reading the renaming backwards gives the expressions before it. *)
Theorem emitted_equations_use_plain_symbols :
  forallb (fun v => existsb (var_beq v) emitted_symbols) (flat_map vars (h ++ dh)) = true /\
  forallb (fun v => existsb (occurs v) (h ++ dh)) emitted_symbols = true /\
  map (subs inverse_dict) h = h_0 /\
  map (subs inverse_dict) dh = dh_0.
Proof. repeat apply conj; vm_compute; reflexivity. Qed.

(** X14. For a ball ([b = c = a]) with its mass centre at its centre
    ([d = e = f = 0]) and equal moments of inertia all twelve expressions
    expand to zero; for such a ball with any inertia the residuals at zero
    spin and their derivatives do, while the coefficients of the squared
    spin do not.  Either condition alone is not enough: for an ellipsoid
    with its mass centre at its centre, and for a ball with its mass centre
    off its centre, none of the twelve expands to zero. *)
Theorem balanced_ball_is_neutral :
  map (fun x => norm (subs (centred_ball ++ isotropic) x)) (h ++ dh) = repeat [] 12 /\
  map (fun x => norm (subs centred_ball x)) [h.[0]; h.[2]; dh.[0]; dh.[1]; dh.[4]; dh.[5]]
    = repeat [] 6 /\
  norm (subs centred_ball h.[1]) <> [] /\
  norm (subs centred_ball h.[3]) <> [] /\
  existsb (vanishes centred_mass) (h ++ dh) = false /\
  existsb (vanishes round_shape) (h ++ dh) = false.
Proof. repeat apply conj; try (vm_compute; reflexivity); vm_compute; discriminate. Qed.

(** X15. In both tables the [k]-th entry defines [z<k>] by an expression
    whose temporaries are among the earlier ones, and the reduced
    expressions use temporaries of their own table only: the statements can
    be run in the order they are emitted. *)
Theorem tables_can_be_run_in_order :
  ordered_from "z" 0 z_h = true /\
  forallb (temps_below "z" (List.length z_h)) h_red = true /\
  ordered_from "z" 0 z_dh = true /\
  forallb (temps_below "z" (List.length z_dh)) dh_red = true.
Proof. repeat apply conj; vm_compute; reflexivity. Qed.

(** ** Frames and inertia, lines 19-24 *)

(** X16. Each rotation keeps its axis: [Y.z] is [N.z], [L.x] is [Y.x] and
    [R.y] is [L.y]; the direction cosines among [Y], [L] and [R] are free of
    the yaw angle and those of [R] in [Y] are the transposed ones of [Y] in
    [R]; the inertia dyadic has the symmetric matrix of the scalars as they
    are named. *)
Theorem frames_and_inertia :
  dot (z_ Y) (z_ N) = Num 1 /\ dot (x_ L) (x_ Y) = Num 1 /\
  dot (y_ R) (y_ L) = Num 1 /\
  express (z_ Y) N = z_ N /\
  map (fun mt => existsb (occurs q.[0]) (mat_entries mt))
      [dcm Y R; dcm R Y; dcm L R; dcm Y L] = [false; false; false; false] /\
  map norm (mat_entries (dcm R Y)) = map norm (mat_entries (transpose (dcm Y R))) /\
  inertia_matrix =
    map (map (fun v => norm (Var v)))
        [[Ixx; Ixy; Ixz]; [Ixy; Iyy; Iyz]; [Ixz; Iyz; Izz]].
Proof. repeat apply conj; vm_compute; reflexivity. Qed.
